(** * mshadow: expression templates and the expression engine

    A shallow embedding of
      - [example/exp-template/exp_template_op.cpp] (module [ExpTemplate]) and
      - [mshadow/expr_engine-inl.h] (module [ExprEngine]),
    together with the properties their specification states about them.

    Numbers of type [float] / [real_t] are IEEE-754 binary32 values, taken
    from the library's executable [spec_float] with precision 24 and
    maximal exponent 128 (round to nearest, ties to even). Buffers live in a
    store of blocks; a pointer is a block and an offset counted in
    elements, so that aliasing between a destination and an operand is
    visible in the model. *)

From Stdlib Require Import ZArith List String Bool Lia FinFun Floats.SpecFloat.
Import ListNotations.
Open Scope Z_scope.

(* ================================================================== *)
(** ** binary32 arithmetic *)

Module Float32.
Definition prec : Z := 24.
Definition emax : Z := 128.
Definition float := spec_float.

(** an integer literal such as [2] or [1.0f] *)
Definition of_Z (z : Z) : float := binary_normalize prec emax z 0 false.
Definition zero : float := S754_zero false.
Definition one : float := of_Z 1.

Definition fmul : float -> float -> float := SFmul prec emax.
Definition fadd : float -> float -> float := SFadd prec emax.
Definition fdiv : float -> float -> float := SFdiv prec emax.
(** [a < b] and [a > b] of C++: false as soon as one side is a NaN *)
Definition flt (a b : float) : bool := SFltb a b.
Definition fgt (a b : float) : bool := SFltb b a.
(** [a == b] of C++ *)
Definition feq (a b : float) : bool := SFeqb a b.
End Float32.
Export Float32.

(* ================================================================== *)
(** ** The store *)

Record ptr : Type := mkptr { pblock : nat; pofs : Z }.

Definition ptr_add (p : ptr) (i : Z) : ptr := mkptr (pblock p) (pofs p + i).

Definition ptr_eqb (p q : ptr) : bool :=
  Nat.eqb (pblock p) (pblock q) && Z.eqb (pofs p) (pofs q).

(** A cell is [None] when it lies outside every allocated buffer. *)
Definition mem : Type := ptr -> option float.

Definition load (m : mem) (p : ptr) : option float := m p.

Definition store (m : mem) (p : ptr) (v : float) : option mem :=
  match m p with
  | Some _ => Some (fun q => if ptr_eqb q p then Some v else m q)
  | None => None
  end.

(** [alloc m b l] places the array [l] in block [b]. *)
Definition alloc (m : mem) (b : nat) (l : list float) : mem :=
  fun q =>
    if Nat.eqb (pblock q) b
    then (if pofs q <? 0 then None else nth_error l (Z.to_nat (pofs q)))
    else m q.

Definition empty_mem : mem := fun _ => None.

(** the [n] cells from [p] on, when all of them are allocated *)
Fixpoint read_array (m : mem) (p : ptr) (n : nat) : option (list float) :=
  match n with
  | O => Some []
  | S n' =>
      match load m p, read_array m (ptr_add p 1) n' with
      | Some v, Some vs => Some (v :: vs)
      | _, _ => None
      end
  end.

(** two stores that differ at most on the cells [ps] *)
Definition agree_except (ps : list ptr) (m m' : mem) : Prop :=
  forall p, ~ In p ps -> m' p = m p.

(* ================================================================== *)
(** ** Outcomes and the evaluation monad *)

(** How a run ends.  [AssertFail] is a failed [utils::Assert]; [Invalid] is
    an access outside the allocated buffers (undefined behaviour in the
    source); [Undefined] is a call of a member function that is declared but
    has no definition. *)
Inductive outcome (A : Type) : Type :=
| Ok (a : A)
| AssertFail (msg : string)
| Invalid
| Undefined.
Arguments Ok {A} a.
Arguments AssertFail {A} msg.
Arguments Invalid {A}.
Arguments Undefined {A}.

(** A computation takes the store and gives the store it leaves behind,
    also when it fails. *)
Definition M (A : Type) : Type := mem -> mem * outcome A.

Definition ret {A} (a : A) : M A := fun m => (m, Ok a).

Definition bind {A B} (c : M A) (f : A -> M B) : M B :=
  fun m =>
    match c m with
    | (m', Ok a) => f a m'
    | (m', AssertFail msg) => (m', AssertFail msg)
    | (m', Invalid) => (m', Invalid)
    | (m', Undefined) => (m', Undefined)
    end.

Declare Scope eval_scope.
Delimit Scope eval_scope with eval.
Notation "x <- c1 ;; c2" := (bind c1 (fun x => c2))
  (at level 100, c1 at next level, right associativity) : eval_scope.
Notation "c1 ;;; c2" := (bind c1 (fun _ => c2))
  (at level 100, right associativity) : eval_scope.
Open Scope eval_scope.

(** reading through a plan: the store is left as it is *)
Definition rd {A} (r : mem -> option A) : M A :=
  fun m => (m, match r m with Some a => Ok a | None => Invalid end).

Definition wr (p : ptr) (v : float) : M unit :=
  fun m => match store m p v with
           | Some m' => (m', Ok tt)
           | None => (m, Invalid)
           end.

(** a loop over the coordinates [cs], in order *)
Fixpoint foreach {C : Type} (cs : list C) (body : C -> M unit) : M unit :=
  match cs with
  | [] => ret tt
  | c :: cs' => body c ;;; foreach cs' body
  end.

(** the values [0, 1, ..., n-1] of a counter [for (i = 0; i < n; ++i)] *)
Definition upto (n : Z) : list Z := map Z.of_nat (seq 0 (Z.to_nat n)).

(** One step of an assignment loop: the source is read at [c], the old
    destination cell is read, and [save old v] is written back. *)
Definition assign_cell {C : Type} (addr : C -> ptr)
    (src : mem -> C -> option float) (save : float -> float -> float)
    (c : C) : M unit :=
  v <- rd (fun m => src m c) ;;
  old <- rd (fun m => load m (addr c)) ;;
  wr (addr c) (save old v).

(** a computation that never ends in a failed assertion *)
Definition never_asserts {A} (c : M A) : Prop :=
  forall m m' msg, c m <> (m', AssertFail msg).

(** a computation that has written nothing when it ends in a failed
    assertion *)
Definition fails_clean {A} (c : M A) : Prop :=
  forall m m' msg, c m = (m', AssertFail msg) -> m' = m.

(* ================================================================== *)
(** ** example/exp-template/exp_template_op.cpp *)

Module ExpTemplate.

(** [struct mul] *)
Definition mul_Map (a b : float) : float := fmul a b.

(** [struct maximum]: [a > b ? a : b] *)
Definition maximum_Map (a b : float) : float := if fgt a b then a else b.

(** [struct Vec]: a length and a pointer to memory the user allocated *)
Record Vec : Type := mkVec { len : Z; dptr : ptr }.

(** The expressions the file can build: a [Vec], or a
      [BinaryMapExp<OP,TLhs,TRhs>] holding references to its operands.
      The operator type [OP] is represented by its static [Map]. *)
Inductive Exp : Type :=
  | EVec (v : Vec)
  | BinaryMapExp (OP : float -> float -> float) (lhs rhs : Exp).

(** [Vec::Eval] is [dptr[i]]; [BinaryMapExp::Eval] is
      [OP::Map(lhs.Eval(i), rhs.Eval(i))]. *)
Fixpoint Eval (e : Exp) (m : mem) (i : Z) : option float :=
    match e with
    | EVec v => load m (ptr_add (dptr v) i)
    | BinaryMapExp OP lhs rhs =>
        match Eval lhs m i, Eval rhs m i with
        | Some a, Some b => Some (OP a b)
        | _, _ => None
        end
    end.

(** [F<OP>(lhs, rhs)] and [operator*] *)
Definition F (OP : float -> float -> float) (lhs rhs : Exp) : Exp :=
    BinaryMapExp OP lhs rhs.
Definition times (lhs rhs : Exp) : Exp := F mul_Map lhs rhs.

(** [Vec::operator=]:
      [for (int i = 0; i < len; ++i) dptr[i] = src.Eval(i);] *)
Definition assign (dst : Vec) (src : Exp) : M unit :=
    foreach (upto (len dst))
      (fun i => v <- rd (fun m => Eval src m i) ;; wr (ptr_add (dptr dst) i) v).

(** [main]: the three arrays are three blocks of the store; the result is
      what the final loop prints, line by line:
      [i], [A.dptr[i]], [B.dptr[i]], [C.dptr[i]]. *)
Definition n : Z := 3.
Definition sa : list float := [of_Z 1; of_Z 2; of_Z 3].
Definition sb : list float := [of_Z 2; of_Z 3; of_Z 4].
Definition sc : list float := [of_Z 3; of_Z 4; of_Z 5].

Definition main_store : mem := alloc (alloc (alloc empty_mem 0 sa) 1 sb) 2 sc.
Definition A : Vec := mkVec n (mkptr 0 0).
Definition B : Vec := mkVec n (mkptr 1 0).
Definition C : Vec := mkVec n (mkptr 2 0).

Definition print_line (m : mem) (i : Z) : option (Z * float * float * float) :=
    match load m (ptr_add (dptr A) i), load m (ptr_add (dptr B) i),
          load m (ptr_add (dptr C) i) with
    | Some a, Some b, Some c => Some (i, a, b, c)
    | _, _, _ => None
    end.

Definition main : outcome (list (option (Z * float * float * float))) :=
    match assign A (times (EVec B) (F maximum_Map (EVec C) (EVec B))) main_store with
    | (m, Ok _) => Ok (map (print_line m) (upto n))
    | (_, AssertFail msg) => AssertFail msg
    | (_, Invalid) => Invalid
    | (_, Undefined) => Undefined
    end.

(** the vector held by [v] in the store [m] *)
Definition contents (m : mem) (v : Vec) : option (list float) :=
    read_array m (dptr v) (Z.to_nat (len v)).

(** The buffer of [v] holds at least [k] cells. *)
Definition holds (m : mem) (v : Vec) (k : Z) : Prop :=
    forall i, 0 <= i < k -> load m (ptr_add (dptr v) i) <> None.

(** Writing cell [i] of [dst] never changes a cell of [a] that a later
      iteration reads: the buffers are different blocks, or [a] starts at or
      after [dst] (which includes [a] being [dst] itself), or [a]'s first
      [len dst] cells end before [dst] starts. *)
Definition no_forward_overlap (dst a : Vec) : Prop :=
    pblock (dptr a) = pblock (dptr dst) ->
    pofs (dptr dst) <= pofs (dptr a) \/
    pofs (dptr a) + len dst <= pofs (dptr dst).

(** An operand [a] is compatible with the destination. *)
Definition compatible (m : mem) (dst a : Vec) : Prop :=
    holds m a (len dst) /\ no_forward_overlap dst a.

(** the vectors an expression refers to *)
Fixpoint operands (e : Exp) : list Vec :=
  match e with
  | EVec v => [v]
  | BinaryMapExp _ lhs rhs => operands lhs ++ operands rhs
  end.

End ExpTemplate.

(* ================================================================== *)
(** ** mshadow/expr_engine-inl.h *)

Module ExprEngine.

(** *** Shapes, devices, tensors (declared in tensor.h) *)

(** [index_t], the unsigned 32-bit index type; [index_wrap] is the
    wrap-around of its arithmetic. *)
Definition index_t : Type := Z.
Definition index_wrap (z : Z) : index_t := z mod 2 ^ 32.

(** A device type: what the engine reads of it is its capability mask. *)
Record Device : Type := mkDevice { kDevMask : Z }.

(** [Shape<dim>]: the extents, axis 0 being the lowest (fastest varying)
    one, and the pitch [stride_] of the lowest axis.  [dim] is the length
    of the list. *)
Record Shape : Type := mkShape { shape_ : list index_t; stride_ : index_t }.

(** [s[i]] (reading past the last axis is undefined in the source; the
    model reads 0 there) *)
Definition Shape_get (s : Shape) (i : nat) : index_t := nth i (shape_ s) 0.

Fixpoint list_set (l : list index_t) (i : nat) (v : index_t) : list index_t :=
  match l, i with
  | [], _ => []
  | _ :: l', O => v :: l'
  | a :: l', S i' => a :: list_set l' i' v
  end.

(** [s[i] = v] *)
Definition Shape_set (s : Shape) (i : nat) (v : index_t) : Shape :=
  mkShape (list_set (shape_ s) i v) (stride_ s).

(** [std::swap(s[0], s[1])] *)
Definition Shape_swap01 (s : Shape) : Shape :=
  match shape_ s with
  | a :: b :: rest => mkShape (b :: a :: rest) (stride_ s)
  | _ => s
  end.

Fixpoint list_eqb (l1 l2 : list index_t) : bool :=
  match l1, l2 with
  | [], [] => true
  | a :: l1', b :: l2' => Z.eqb a b && list_eqb l1' l2'
  | _, _ => false
  end.

(** Modelled from the spec: [Shape::operator==] of tensor.h is not among the
    sources; "shapes must match exactly, axis by axis". *)
Definition Shape_eqb (s1 s2 : Shape) : bool := list_eqb (shape_ s1) (shape_ s2).

(** number of rows and of columns of a matrix shape: a row is a run of
    [shape[0]] consecutive cells, and there are [shape[1]] of them *)
Definition rows (s : Shape) : index_t := Shape_get s 1.
Definition cols (s : Shape) : index_t := Shape_get s 0.

(** [Tensor<Device,dim>]: the device, the buffer and the shape *)
Record Tensor : Type := mkTensor { device : Device; dptr : ptr; shape : Shape }.

Definition rank (t : Tensor) : Z := Z.of_nat (List.length (shape_ (shape t))).

(** *** What a default-constructed [Shape<dim>] holds

    [Shape<dim> shape;] leaves the extents and the stride indeterminate.
    The values found there are a parameter of the model. *)
Record Indeterminate : Type :=
  mkIndeterminate { junk_extent : nat -> index_t; junk_stride : index_t }.

Definition Shape_default (J : Indeterminate) (dim : nat) : Shape :=
  mkShape (map (junk_extent J) (seq 0 dim)) (junk_stride J).

(** Modelled from the spec: [Shape2] of tensor.h is not among the sources.
    [Shape2(s1, s0)] is the rank-2 shape with [s1] rows and [s0] columns,
    so that [GetShape] below gives the effective shape "accounting for
    transpose flags", as the extents passed to gemm in [DotEngine] do. *)
Definition Shape2 (J : Indeterminate) (s1 s0 : index_t) : Shape :=
  Shape_set (Shape_set (Shape_default J 2) 0 s0) 1 s1.

(** Modelled from the spec: [FlatTo2D] of tensor.h is not among the
    sources; the "trailing dimensions collapsed to an effective 2-D"
    shape: the lowest extent and the pitch are kept, the others are
    multiplied. *)
Definition Shape_FlatTo2D (s : Shape) : Shape :=
  mkShape [Shape_get s 0; index_wrap (fold_right Z.mul 1 (tl (shape_ s)))]
          (stride_ s).
Definition FlatTo2D (t : Tensor) : Tensor :=
  mkTensor (device t) (dptr t) (Shape_FlatTo2D (shape t)).

(** *** Expressions (declared in expression.h) *)

(** The plan of the subtype of a [MakeTensorExp] is defined by the
    extension that introduces the subtype; the engine uses its [Eval]. *)
Definition SubTypeEval : Type := mem -> index_t -> index_t -> option float.

(** Expressions of kind mapper or container, the ones [MakePlan] and
    [ShapeCheck] are defined on.  An operator type [OP] is represented by
    its static [Map]. *)
Inductive Exp : Type :=
| ScalarExp (scalar_ : float)
| TensorExp (t : Tensor)
| TransposeExp (exp : Exp)
| MakeTensorExp (shape_ : Shape) (real_self : SubTypeEval)
| UnaryMapExp (OP : float -> float) (src_ : Exp)
| BinaryMapExp (OP : float -> float -> float) (lhs_ rhs_ : Exp).

(** [DotExp<Tensor<Device,ldim>, Tensor<Device,rdim>, ltrans, rtrans>] *)
Record DotExp : Type :=
  mkDotExp { dot_lhs_ : Tensor; dot_rhs_ : Tensor;
             dot_ltrans : bool; dot_rtrans : bool; dot_scale_ : float }.

(** an expression with its kind, as [ExpEngine::Eval] receives it *)
Inductive AnyExp : Type :=
| MapperOrContainer (e : Exp)
| Complex (e : DotExp).

(** *** Plans *)

Inductive Plan : Type :=
| PlanTensor (dptr_ : ptr) (stride_ : index_t)
| PlanTensor1 (dptr_ : ptr)
| PlanScalar (scalar_ : float)
| PlanBinaryMapExp (OP : float -> float -> float) (lhs_ rhs_ : Plan)
| PlanUnaryMapExp (OP : float -> float) (src_ : Plan)
| PlanSubType (eval : SubTypeEval)
| PlanMakeTensorExp (src_ : Plan)
| PlanTransposeExp (src_ : Plan).

(** [Plan<...>::Eval(y, x)], one line per specialization *)
Fixpoint Plan_Eval (p : Plan) (m : mem) (y x : index_t) : option float :=
  match p with
  | PlanTensor dptr_ stride_ => load m (ptr_add dptr_ (index_wrap (y * stride_ + x)))
  | PlanTensor1 dptr_ => load m (ptr_add dptr_ x)
  | PlanScalar scalar_ => Some scalar_
  | PlanBinaryMapExp OP lhs_ rhs_ =>
      match Plan_Eval lhs_ m y x, Plan_Eval rhs_ m y x with
      | Some a, Some b => Some (OP a b)
      | _, _ => None
      end
  | PlanUnaryMapExp OP src_ =>
      match Plan_Eval src_ m y x with
      | Some a => Some (OP a)
      | None => None
      end
  | PlanSubType eval => eval m y x
  | PlanMakeTensorExp src_ => Plan_Eval src_ m y x
  | PlanTransposeExp src_ => Plan_Eval src_ m x y
  end.

(** the plan of a tensor: the rank-1 specialization has no stride *)
Definition Plan_of_Tensor (t : Tensor) : Plan :=
  if rank t =? 1 then PlanTensor1 (dptr t)
  else PlanTensor (dptr t) (stride_ (shape t)).

(** [MakePlan], one line per overload *)
Fixpoint MakePlan (e : Exp) : Plan :=
  match e with
  | ScalarExp scalar_ => PlanScalar scalar_
  | TensorExp t => Plan_of_Tensor t
  | TransposeExp exp => PlanTransposeExp (MakePlan exp)
  | MakeTensorExp _ real_self => PlanSubType real_self
  | UnaryMapExp OP src_ => PlanUnaryMapExp OP (MakePlan src_)
  | BinaryMapExp OP lhs_ rhs_ => PlanBinaryMapExp OP (MakePlan lhs_) (MakePlan rhs_)
  end.

(** the cell the non-const [Eval(y, x)] of a tensor's plan refers to *)
Definition Tensor_cell (t : Tensor) (y x : index_t) : ptr :=
  if rank t =? 1 then ptr_add (dptr t) x
  else ptr_add (dptr t) (index_wrap (y * stride_ (shape t) + x)).

(** *** Static type inference *)

(** Expression types.  The operator and the expression-kind arguments of
    the map expressions are left out: [ExpInfo] does not look at them.
    [TDotExp] and [TOther] are types no specialization of [ExpInfo]
    matches. *)
Inductive ExpType : Type :=
| TScalarExp
| TTransposeExp (E : ExpType)
| TTensor (D : Device) (dim : Z)
| TMakeTensorExp (T SrcExp : ExpType) (dim : Z)
| TUnaryMapExp (TA : ExpType)
| TBinaryMapExp (TA TB : ExpType)
| TDotExp (TA TB : ExpType) (ltrans rtrans : bool)
| TOther (name : string).

Definition ExpInfo_specialized (E : ExpType) : bool :=
  match E with
  | TDotExp _ _ _ _ | TOther _ => false
  | _ => true
  end.

Fixpoint ExpInfo_kDim (E : ExpType) : Z :=
  match E with
  | TScalarExp => 0
  | TTransposeExp E' => ExpInfo_kDim E'
  | TTensor _ dim => dim
  | TMakeTensorExp _ SrcExp dim =>
      let kDimSrc := ExpInfo_kDim SrcExp in
      if kDimSrc >=? 0 then dim else -1
  | TUnaryMapExp TA => ExpInfo_kDim TA
  | TBinaryMapExp TA TB =>
      let kDimLhs := ExpInfo_kDim TA in
      let kDimRhs := ExpInfo_kDim TB in
      if (kDimLhs >=? 0) && (kDimRhs >=? 0)
      then (if kDimLhs =? 0 then kDimRhs
            else if (kDimRhs =? 0) || (kDimLhs =? kDimRhs) then kDimLhs
                 else -1)
      else -1
  | TDotExp _ _ _ _ | TOther _ => -1
  end.

Fixpoint ExpInfo_kDevMask (E : ExpType) : Z :=
  match E with
  | TScalarExp => 65535
  | TTransposeExp E' => ExpInfo_kDevMask E'
  | TTensor D _ => kDevMask D
  | TMakeTensorExp _ SrcExp _ => ExpInfo_kDevMask SrcExp
  | TUnaryMapExp TA => ExpInfo_kDevMask TA
  | TBinaryMapExp TA TB => Z.land (ExpInfo_kDevMask TA) (ExpInfo_kDevMask TB)
  | TDotExp _ _ _ _ | TOther _ => 0
  end.

(** [TypeCheck<Device,dim,E>] *)
Definition TypeCheck_kExpDim (E : ExpType) : Z := ExpInfo_kDim E.
Definition TypeCheck_kDevPass (D : Device) (E : ExpType) : bool :=
  negb (Z.land (ExpInfo_kDevMask E) (kDevMask D) =? 0).
Definition TypeCheck_kMapPass (D : Device) (dim : Z) (E : ExpType) : bool :=
  ((TypeCheck_kExpDim E =? 0) || (TypeCheck_kExpDim E =? dim))
  && TypeCheck_kDevPass D E.
Definition TypeCheck_kRedPass (D : Device) (dim : Z) (E : ExpType) : bool :=
  (TypeCheck_kExpDim E >? dim) && TypeCheck_kDevPass D E.

(** the binary rule in the words of the specification *)
Definition binary_dim_rule (l r : Z) : Z :=
  if l =? 0 then r
  else if r =? 0 then l
  else if l =? r then l
  else -1.

(** an expression type all of whose tensors have a rank that is not
    negative *)
Fixpoint ranks_nonneg (E : ExpType) : Prop :=
  match E with
  | TScalarExp | TDotExp _ _ _ _ | TOther _ => True
  | TTransposeExp E' => ranks_nonneg E'
  | TTensor _ dim => 0 <= dim
  | TMakeTensorExp _ SrcExp dim => ranks_nonneg SrcExp /\ 0 <= dim
  | TUnaryMapExp TA => ranks_nonneg TA
  | TBinaryMapExp TA TB => ranks_nonneg TA /\ ranks_nonneg TB
  end.

(** *** Shape consistency *)

(** Modelled from the spec: [utils::Assert] of utils.h is not among the
    sources; a failed assertion is a failure with the given diagnostic
    ("fail fast"), and nothing after it runs. *)
Definition Assert (cond : bool) (msg : string) : outcome unit :=
  if cond then Ok tt else AssertFail msg.

Definition obind {A B} (o : outcome A) (f : A -> outcome B) : outcome B :=
  match o with
  | Ok a => f a
  | AssertFail msg => AssertFail msg
  | Invalid => Invalid
  | Undefined => Undefined
  end.

Definition BinaryMapExp_mismatch : string :=
  "BinaryMapExp: Shapes of two tensors in BinaryMapExp expression is not the same".

(** [ShapeCheck<dim,E>::Check], one line per specialization.  The tensor
    and the [MakeTensorExp] specializations match only an expression of
    rank [dim]; for another rank, only the primary template's declaration
    is left. *)
Fixpoint ShapeCheck_Check (J : Indeterminate) (dim : nat) (e : Exp) : outcome Shape :=
  match e with
  | ScalarExp _ => Ok (Shape_set (Shape_default J dim) 0 0)
  | TransposeExp exp =>
      obind (ShapeCheck_Check J dim exp) (fun s => Ok (Shape_swap01 s))
  | TensorExp t =>
      if Nat.eqb (List.length (shape_ (shape t))) dim then Ok (shape t) else Undefined
  | MakeTensorExp shape_0 _ =>
      if Nat.eqb (List.length (shape_ shape_0)) dim then Ok shape_0 else Undefined
  | UnaryMapExp _ src_ =>
      obind (ShapeCheck_Check J dim src_) (fun s => Ok s)
  | BinaryMapExp _ lhs_ rhs_ =>
      obind (ShapeCheck_Check J dim lhs_) (fun shape1 =>
      obind (ShapeCheck_Check J dim rhs_) (fun shape2 =>
        if Shape_get shape1 0 =? 0 then Ok shape2
        else if Shape_get shape2 0 =? 0 then Ok shape1
        else obind (Assert (Shape_eqb shape1 shape2) BinaryMapExp_mismatch)
                   (fun _ => Ok shape1)))
  end.

(** *** The BLAS binding

    The BLAS routines are an external library; [BLASEngine<Device>] only
    forwards to them.  They are given here by the reference semantics of
    the column-major routines: [gemm] computes
    [C := alpha*op(A)*op(B) + beta*C] ([C] is not read when [beta] is
    zero), [gemv] computes [y := alpha*op(A)*x + beta*y], and [ger] is the
    rank-one update [A := alpha*x*y^T + A]. *)

Definition lift {A} (o : outcome A) : M A := fun st => (st, o).

(** [acc + sum of a*b] over the pairs of cells [ps] *)
Fixpoint sum_products (st : mem) (ps : list (ptr * ptr)) (acc : float) : option float :=
  match ps with
  | [] => Some acc
  | (p, q) :: ps' =>
      match load st p, load st q with
      | Some a, Some b => sum_products st ps' (fadd acc (fmul a b))
      | _, _ => None
      end
  end.

(** [c := alpha*ab + beta*c] *)
Definition axpby_cell (alpha ab beta : float) (c : ptr) : M unit :=
  if feq beta zero then wr c (fmul alpha ab)
  else old <- rd (fun st => load st c) ;;
       wr c (fadd (fmul alpha ab) (fmul beta old)).

Definition BLASEngine_gemm (transa transb : bool) (m n k : Z) (alpha : float)
    (A : ptr) (lda : Z) (B : ptr) (ldb : Z) (beta : float) (C : ptr) (ldc : Z)
    : M unit :=
  foreach (upto n) (fun j =>
  foreach (upto m) (fun i =>
    let a_il l := ptr_add A (if transa then l + i * lda else i + l * lda) in
    let b_lj l := ptr_add B (if transb then j + l * ldb else l + j * ldb) in
    ab <- rd (fun st => sum_products st (map (fun l => (a_il l, b_lj l)) (upto k)) zero) ;;
    axpby_cell alpha ab beta (ptr_add C (i + j * ldc)))).

Definition BLASEngine_gemv (trans : bool) (m n : Z) (alpha : float)
    (A : ptr) (lda : Z) (X : ptr) (incX : Z) (beta : float) (Y : ptr) (incY : Z)
    : M unit :=
  if trans
  then foreach (upto n) (fun j =>
         ab <- rd (fun st => sum_products st
                     (map (fun i => (ptr_add A (i + j * lda), ptr_add X (i * incX))) (upto m))
                     zero) ;;
         axpby_cell alpha ab beta (ptr_add Y (j * incY)))
  else foreach (upto m) (fun i =>
         ab <- rd (fun st => sum_products st
                     (map (fun j => (ptr_add A (i + j * lda), ptr_add X (j * incX))) (upto n))
                     zero) ;;
         axpby_cell alpha ab beta (ptr_add Y (i * incY))).

Definition BLASEngine_ger (m n : Z) (alpha : float)
    (X : ptr) (incX : Z) (Y : ptr) (incY : Z) (A : ptr) (lda : Z) : M unit :=
  foreach (upto n) (fun j =>
  foreach (upto m) (fun i =>
    x <- rd (fun st => load st (ptr_add X (i * incX))) ;;
    y <- rd (fun st => load st (ptr_add Y (j * incY))) ;;
    old <- rd (fun st => load st (ptr_add A (i + j * lda))) ;;
    wr (ptr_add A (i + j * lda)) (fadd old (fmul x (fmul alpha y))))).

(** *** The dot engine *)

(** Modelled from the spec: the accumulation policies ([sv::saveto],
    [sv::plusto]) are not among the sources.  A policy "must expose two
    constants: a scale multiplier applied to every result and a beta value
    selecting overwrite (0) vs accumulate (1)"; [Save] is what the policy
    does to one destination cell. *)
Record Saver : Type :=
  mkSaver { Save : float -> float -> float; kAlphaBLAS : float; kBetaBLAS : float }.

Definition saveto : Saver := mkSaver (fun _ b => b) one zero.
Definition plusto : Saver := mkSaver (fun a b => fadd a b) one one.

(** the literal [1e-6f]: the binary32 value nearest to 10^-6 *)
Definition lit_1e_6f : float := S754_finite false 8796093 (-43).

Definition GetShape (J : Indeterminate) (shape0 : Shape) (transpose : bool) : Shape :=
  if transpose then Shape2 J (Shape_get shape0 0) (Shape_get shape0 1) else shape0.

Definition dot_gemm_mismatch : string := "dot-gemm: matrix shape mismatch".
Definition dot_gemv_mismatch : string := "dot-gemv: matrix shape mismatch".
Definition dot_ger_mismatch : string := "dot-ger: matrix shape mismatch".

(** [DotEngine<SV,xpu,2,2,2,transpose_left,transpose_right>::Eval] *)
Definition DotEngine_2_2_2_Eval (J : Indeterminate) (SV : Saver)
    (transpose_left transpose_right : bool)
    (dst lhs rhs : Tensor) (scale : float) : M unit :=
  let sleft := GetShape J (shape lhs) transpose_left in
  let sright := GetShape J (shape rhs) transpose_right in
  lift (Assert ((Shape_get (shape dst) 1 =? Shape_get sleft 1)
                && (Shape_get (shape dst) 0 =? Shape_get sright 0)
                && (Shape_get sleft 0 =? Shape_get sright 1))
               dot_gemm_mismatch) ;;;
  BLASEngine_gemm transpose_right transpose_left
    (if transpose_right then Shape_get (shape rhs) 1 else Shape_get (shape rhs) 0)
    (if transpose_left then Shape_get (shape lhs) 0 else Shape_get (shape lhs) 1)
    (if transpose_right then Shape_get (shape rhs) 0 else Shape_get (shape rhs) 1)
    (fmul scale (kAlphaBLAS SV))
    (dptr rhs) (stride_ (shape rhs))
    (dptr lhs) (stride_ (shape lhs))
    (kBetaBLAS SV)
    (dptr dst) (stride_ (shape dst)).

(** [DotEngine<SV,xpu,1,1,2,false,transpose_right>::Eval] *)
Definition DotEngine_1_1_2_Eval (J : Indeterminate) (SV : Saver)
    (transpose_right : bool)
    (dst lhs rhs : Tensor) (scale : float) : M unit :=
  let sright := GetShape J (shape rhs) transpose_right in
  lift (Assert ((Shape_get (shape dst) 0 =? Shape_get sright 0)
                && (Shape_get (shape lhs) 0 =? Shape_get sright 1))
               dot_gemv_mismatch) ;;;
  BLASEngine_gemv transpose_right
    (Shape_get (shape rhs) 0) (Shape_get (shape rhs) 1)
    (fmul scale (kAlphaBLAS SV))
    (dptr rhs) (stride_ (shape rhs))
    (dptr lhs) 1 (kBetaBLAS SV)
    (dptr dst) 1.

(** [DotEngine<SV,xpu,2,1,1,true,false>::Eval] *)
Definition DotEngine_2_1_1_Eval (J : Indeterminate) (SV : Saver)
    (dst lhs rhs : Tensor) (scale : float) : M unit :=
  lift (Assert ((Shape_get (shape dst) 1 =? Shape_get (shape lhs) 0)
                && (Shape_get (shape dst) 0 =? Shape_get (shape rhs) 0))
               dot_ger_mismatch) ;;;
  if flt (kBetaBLAS SV) lit_1e_6f
  then BLASEngine_ger (Shape_get (shape rhs) 0) (Shape_get (shape lhs) 0)
         (fmul scale (kAlphaBLAS SV))
         (dptr rhs) 1 (dptr lhs) 1 (dptr dst) (stride_ (shape dst))
  else DotEngine_2_2_2_Eval J SV true false dst (FlatTo2D lhs) (FlatTo2D rhs) scale.

(** The specializations of [DotEngine]; [None] is the primary template,
    whose [Eval] is declared and not defined.  The three partial
    specializations match disjoint sets of arguments. *)
Definition DotEngine_Eval (J : Indeterminate) (SV : Saver)
    (ddim ldim rdim : Z) (ltrans rtrans : bool)
    : option (Tensor -> Tensor -> Tensor -> float -> M unit) :=
  if (ddim =? 2) && (ldim =? 2) && (rdim =? 2)
  then Some (DotEngine_2_2_2_Eval J SV ltrans rtrans)
  else if (ddim =? 1) && (ldim =? 1) && (rdim =? 2) && negb ltrans
  then Some (DotEngine_1_1_2_Eval J SV rtrans)
  else if (ddim =? 2) && (ldim =? 1) && (rdim =? 1) && ltrans && negb rtrans
  then Some (DotEngine_2_1_1_Eval J SV)
  else None.

(** *** The engines *)

(** [ExpComplexEngine<SV,Device,dim,DotExp<...>>::Eval] *)
Definition ExpComplexEngine_Eval (J : Indeterminate) (SV : Saver)
    (dst : Tensor) (exp : DotExp) : M unit :=
  match DotEngine_Eval J SV (rank dst) (rank (dot_lhs_ exp)) (rank (dot_rhs_ exp))
          (dot_ltrans exp) (dot_rtrans exp) with
  | Some Eval => Eval dst (dot_lhs_ exp) (dot_rhs_ exp) (dot_scale_ exp)
  | None => lift Undefined
  end.

(** Modelled from the spec: [MapPlan] of tensor_cpu-inl.h is not among the
    sources.  The generic evaluator "iterates every coordinate of the
    destination shape (row-major over the flattened trailing dimensions
    collapsed to an effective 2-D iteration ...) and assigns
    dst.Eval(row,col) = plan.Eval(row,col)", through the policy's [Save]. *)
Definition MapPlan (SV : Saver) (dst : Tensor) (plan : Plan) : M unit :=
  let dst2 := FlatTo2D dst in
  foreach (upto (Shape_get (shape dst2) 1)) (fun y =>
  foreach (upto (Shape_get (shape dst2) 0)) (fun x =>
    assign_cell (fun c : index_t * index_t => Tensor_cell dst (fst c) (snd c))
                (fun st c => Plan_Eval plan st (fst c) (snd c))
                (Save SV) (y, x))).

(** Modelled from the spec: [MapExp] of tensor_cpu-inl.h is not among the
    sources.  The shape check "runs once per assignment before (or during)
    plan construction"; then the plan is built and evaluated. *)
Definition MapExp (J : Indeterminate) (SV : Saver) (dst : Tensor) (exp : Exp) : M unit :=
  lift (ShapeCheck_Check J (List.length (shape_ (shape dst))) exp) ;;;
  MapPlan SV dst (MakePlan exp).

(** [ExpEngine<SV,Tensor<Device,dim>>::Eval], one line per overload *)
Definition ExpEngine_Eval (J : Indeterminate) (SV : Saver)
    (dst : Tensor) (exp : AnyExp) : M unit :=
  match exp with
  | MapperOrContainer e => MapExp J SV dst e
  | Complex e => ExpComplexEngine_Eval J SV dst e
  end.

(** *** Notions used to state the properties *)

(** the shape check of the matrix product in the words of the
    specification, for a given reading [nrow], [ncol] of "rows" and
    "columns" of a shape: "destination rows = left's effective columns,
    destination columns = right's effective rows, left's effective
    columns = right's effective rows" *)
Definition gemm_check_as_stated (nrow ncol : Shape -> index_t)
    (J : Indeterminate) (transpose_left transpose_right : bool)
    (dst lhs rhs : Tensor) : bool :=
  let sleft := GetShape J (shape lhs) transpose_left in
  let sright := GetShape J (shape rhs) transpose_right in
  (nrow (shape dst) =? ncol sleft)
  && (ncol (shape dst) =? nrow sright)
  && (ncol sleft =? nrow sright).

(** rows and columns of an operand after its transpose flag is applied *)
Definition effective_rows (t : Tensor) (transpose : bool) : index_t :=
  if transpose then cols (shape t) else rows (shape t).
Definition effective_cols (t : Tensor) (transpose : bool) : index_t :=
  if transpose then rows (shape t) else cols (shape t).

(** the extents of the two loops of [MapPlan] over [t] *)
Definition nrows (t : Tensor) : index_t := Shape_get (shape (FlatTo2D t)) 1.
Definition ncols (t : Tensor) : index_t := Shape_get (shape (FlatTo2D t)) 0.

(** the coordinates [MapPlan] visits, in order *)
Definition grid (t : Tensor) : list (index_t * index_t) :=
  flat_map (fun y => map (fun x => (y, x)) (upto (ncols t))) (upto (nrows t)).

(** Different coordinates of [t] are different cells: [t] has rank 1, or
    a row fits in the pitch and the last row ends within the range of
    [index_t]. *)
Definition layout_ok (t : Tensor) : Prop :=
  rank t = 1 \/
  (ncols t <= stride_ (shape t) /\ nrows t * stride_ (shape t) <= 2 ^ 32).

(** every cell of [t] lies in an allocated buffer *)
Definition allocated (m : mem) (t : Tensor) : Prop :=
  forall y x, 0 <= y < nrows t -> 0 <= x < ncols t ->
    load m (Tensor_cell t y x) <> None.

(** [a] is in another buffer than [dst], or it is laid out exactly as
    [dst] is (as when [a] is [dst] itself). *)
Definition no_hazard (dst a : Tensor) : Prop :=
  pblock (dptr a) <> pblock (dptr dst) \/
  (dptr a = dptr dst /\ stride_ (shape a) = stride_ (shape dst)).

(** *** Notions used to state further properties *)



(** the coordinate [(y, x)] lies within the matrix shape [s] *)
Definition within (s : Shape) (y x : index_t) : Prop :=
  0 <= y < Shape_get s 1 /\ 0 <= x < Shape_get s 0.

(** Evaluating the plan of [e] at [(y, x)] asks every tensor of [e] for a
    coordinate within that tensor's own shape. *)
Fixpoint in_bounds (e : Exp) (y x : index_t) : Prop :=
  match e with
  | ScalarExp _ => True
  | TensorExp t => within (shape t) y x
  | TransposeExp exp => in_bounds exp x y
  | MakeTensorExp shape_0 _ => within shape_0 y x
  | UnaryMapExp _ src_ => in_bounds src_ y x
  | BinaryMapExp _ lhs_ rhs_ => in_bounds lhs_ y x /\ in_bounds rhs_ y x
  end.

(** no tensor of [e] has an extent 0 on one of its two lowest axes *)
Fixpoint extents_nonzero (e : Exp) : Prop :=
  match e with
  | ScalarExp _ => True
  | TensorExp t => Shape_get (shape t) 0 <> 0 /\ Shape_get (shape t) 1 <> 0
  | TransposeExp exp => extents_nonzero exp
  | MakeTensorExp shape_0 _ => Shape_get shape_0 0 <> 0 /\ Shape_get shape_0 1 <> 0
  | UnaryMapExp _ src_ => extents_nonzero src_
  | BinaryMapExp _ lhs_ rhs_ => extents_nonzero lhs_ /\ extents_nonzero rhs_
  end.

(** every tensor of [e] can be read at every coordinate within its shape *)
Fixpoint leaves_readable (m : mem) (e : Exp) : Prop :=
  match e with
  | ScalarExp _ => True
  | TensorExp t =>
      forall y x, within (shape t) y x -> load m (Tensor_cell t y x) <> None
  | TransposeExp exp => leaves_readable m exp
  | MakeTensorExp shape_0 real_self =>
      forall y x, within shape_0 y x -> real_self m y x <> None
  | UnaryMapExp _ src_ => leaves_readable m src_
  | BinaryMapExp _ lhs_ rhs_ => leaves_readable m lhs_ /\ leaves_readable m rhs_
  end.






(** an expression type built from scalars and from tensors of rank [dim]
    on the device [D], by transposition and unary and binary maps *)
Fixpoint built_on (D : Device) (dim : Z) (E : ExpType) : Prop :=
  match E with
  | TScalarExp => True
  | TTransposeExp E' => built_on D dim E'
  | TTensor D' dim' => kDevMask D' = kDevMask D /\ dim' = dim
  | TUnaryMapExp TA => built_on D dim TA
  | TBinaryMapExp TA TB => built_on D dim TA /\ built_on D dim TB
  | TMakeTensorExp _ _ _ | TDotExp _ _ _ _ | TOther _ => False
  end.

(** *** Concrete inputs *)

Definition J0 : Indeterminate := mkIndeterminate (fun _ => 77) 99.
Definition cpu : Device := mkDevice 1.

(** a 2x4 destination, a 2x3 left operand and a 3x4 right operand *)
Definition mm_store : mem :=
  alloc (alloc (alloc empty_mem 0 (map of_Z [0; 0; 0; 0; 0; 0; 0; 0]))
               1 (map of_Z [1; 2; 3; 4; 5; 6]))
        2 (map of_Z [1; 0; 0; 0; 0; 1; 0; 0; 0; 0; 1; 0]).
Definition mm_dst : Tensor := mkTensor cpu (mkptr 0 0) (mkShape [4; 2] 4).
Definition mm_lhs : Tensor := mkTensor cpu (mkptr 1 0) (mkShape [3; 2] 3).
Definition mm_rhs : Tensor := mkTensor cpu (mkptr 2 0) (mkShape [4; 3] 4).

(** the outer product of [X = {1,2}] and [Y = {3,4}] into a 2x2
    destination that holds ones *)
Definition ger_store : mem :=
  alloc (alloc (alloc empty_mem 0 (map of_Z [1; 1; 1; 1]))
               1 (map of_Z [1; 2]))
        2 (map of_Z [3; 4]).
Definition ger_dst : Tensor := mkTensor cpu (mkptr 0 0) (mkShape [2; 2] 2).
Definition ger_X : Tensor := mkTensor cpu (mkptr 1 0) (mkShape [2] 2).
Definition ger_Y : Tensor := mkTensor cpu (mkptr 2 0) (mkShape [2] 2).


(** the outcome of a run and the first [k] cells of block 0 after it *)
Definition run_on (st : mem) (k : nat) (c : M unit)
    : outcome unit * option (list float) :=
  let r := c st in (snd r, read_array (fst r) (mkptr 0 0) k).

End ExprEngine.

(* ================================================================== *)
(** * Properties *)

(** ** The store and the loops *)

Lemma ptr_eqb_eq (p q : ptr) : ptr_eqb p q = true <-> p = q.
Proof.
  destruct p as [b o], q as [b' o']; unfold ptr_eqb; cbn.
  rewrite andb_true_iff, Nat.eqb_eq, Z.eqb_eq.
  split; [intros [-> ->]; reflexivity | intros E; inversion E; auto].
Qed.

Lemma ptr_eqb_refl (p : ptr) : ptr_eqb p p = true.
Proof. apply ptr_eqb_eq; reflexivity. Qed.

Lemma ptr_eqb_neq (p q : ptr) : p <> q -> ptr_eqb p q = false.
Proof.
  intros N; destruct (ptr_eqb p q) eqn:E; [|reflexivity].
  apply ptr_eqb_eq in E; contradiction.
Qed.

Lemma ptr_add_inj (p : ptr) (i j : Z) : ptr_add p i = ptr_add p j -> i = j.
Proof. unfold ptr_add; intros E; inversion E; lia. Qed.

Lemma store_allocated (m : mem) (p : ptr) (v old : float) :
  load m p = Some old ->
  exists m', store m p v = Some m' /\
             load m' p = Some v /\
             (forall q, q <> p -> load m' q = load m q).
Proof.
  unfold load, store; intros ->.
  eexists; split; [reflexivity|]; cbn; split.
  - now rewrite ptr_eqb_refl.
  - intros q N; now rewrite (ptr_eqb_neq _ _ N).
Qed.

Lemma In_upto (n i : Z) : In i (upto n) <-> 0 <= i < n.
Proof.
  unfold upto; rewrite in_map_iff; split.
  - intros [k [<- Hk]]; apply in_seq in Hk; lia.
  - intros H; exists (Z.to_nat i); split; [lia | apply in_seq; lia].
Qed.

Lemma upto_split (n : Z) (pre post : list Z) (i : Z) :
  upto n = pre ++ i :: post -> forall j, In j pre -> 0 <= j < i.
Proof.
  unfold upto; generalize (Z.to_nat n); intros k; generalize 0%nat as s.
  revert pre; induction k as [|k IH]; intros pre s E j Hj.
  - destruct pre; discriminate.
  - cbn in E; destruct pre as [|a pre]; [contradiction|].
    cbn in E; injection E as Ea E.
    assert (Hi : In i (map Z.of_nat (seq (S s) k))).
    { rewrite E; apply in_or_app; right; left; reflexivity. }
    apply in_map_iff in Hi; destruct Hi as [q [<- Hq]]; apply in_seq in Hq.
    destruct Hj as [ <- | Hj].
    + subst a; lia.
    + specialize (IH pre (S s) E j Hj); lia.
Qed.

Lemma NoDup_upto (n : Z) : NoDup (upto n).
Proof.
  unfold upto; apply Injective_map_NoDup; [|apply seq_NoDup].
  intros a b; lia.
Qed.

Lemma foreach_ext {C : Type} (cs : list C) (f g : C -> M unit) :
  (forall c m, In c cs -> f c m = g c m) ->
  forall m, foreach cs f m = foreach cs g m.
Proof.
  induction cs as [|c cs IH]; intros E m; [reflexivity|].
  cbn; unfold bind; rewrite (E c m (or_introl eq_refl)).
  destruct (g c m) as [m1 [[]| | |]]; try reflexivity.
  apply IH; intros; apply E; now right.
Qed.

Section AssignLoop.
Context {C : Type}.
Variable addr : C -> ptr.
Variable src : mem -> C -> option float.
Variable save : float -> float -> float.

Lemma assign_cell_ok (c : C) (m : mem) (v old : float) :
  src m c = Some v -> load m (addr c) = Some old ->
  exists m', assign_cell addr src save c m = (m', Ok tt) /\
             load m' (addr c) = Some (save old v) /\
             (forall q, q <> addr c -> load m' q = load m q).
Proof.
  intros Hs Hl.
  destruct (store_allocated m (addr c) (save old v) old Hl) as [m' [St [L1 L2]]].
  exists m'; split; [|split; assumption].
  unfold assign_cell, bind, rd, wr; now rewrite Hs, Hl, St.
Qed.

(** The loop writes every destination cell once, with the value the source
    had at that coordinate in the initial store, as long as no write
    changes what a later iteration reads. *)
Lemma foreach_assign_cell (cs : list C) :
  forall m : mem,
    NoDup (map addr cs) ->
    (forall c, In c cs -> load m (addr c) <> None) ->
    (forall c, In c cs -> src m c <> None) ->
    (forall pre c post m', cs = pre ++ c :: post ->
        agree_except (map addr pre) m m' -> src m' c = src m c) ->
    exists m',
      foreach cs (assign_cell addr src save) m = (m', Ok tt) /\
      agree_except (map addr cs) m m' /\
      (forall c v old, In c cs -> src m c = Some v -> load m (addr c) = Some old ->
          load m' (addr c) = Some (save old v)).
Proof.
  induction cs as [|c0 cs IH]; intros m ND Hdst Hsrc Hstable.
  - exists m; split; [reflexivity|]; split; [intros p _; reflexivity | intros ? ? ? []].
  - inversion ND as [|? ? Hnotin ND']; subst.
    destruct (src m c0) as [v0|] eqn:Ev0; [|exfalso; apply (Hsrc c0); [now left|assumption]].
    destruct (load m (addr c0)) as [old0|] eqn:Eo0;
      [|exfalso; apply (Hdst c0); [now left|assumption]].
    destruct (assign_cell_ok c0 m v0 old0 Ev0 Eo0) as [m1 [Run1 [L1 Other1]]].
    assert (A1 : agree_except [addr c0] m m1).
    { intros p Hp; apply Other1; intros ->; apply Hp; now left. }
    assert (Hsrc1 : forall c, In c cs -> src m1 c = src m c).
    { intros c Hc; apply in_split in Hc; destruct Hc as [pre [post ->]].
      apply (Hstable (c0 :: pre) c post m1); [reflexivity|].
      intros p Hp; apply Other1; intros ->; apply Hp; now left. }
    assert (Hdst1 : forall c, In c cs -> load m1 (addr c) = load m (addr c)).
    { intros c Hc; apply Other1; intros E; apply Hnotin; rewrite <- E.
      now apply in_map. }
    destruct (IH m1 ND') as [m' [Run [Agree Vals]]].
    + intros c Hc; rewrite (Hdst1 c Hc); apply Hdst; now right.
    + intros c Hc; rewrite (Hsrc1 c Hc); apply Hsrc; now right.
    + intros pre c post m'' -> Hag.
      rewrite (Hsrc1 c) by (apply in_or_app; right; now left).
      apply (Hstable (c0 :: pre) c post m''); [reflexivity|].
      intros p Hp; cbn in Hp.
      rewrite (Hag p) by (intros Hin; apply Hp; now right).
      apply Other1; intros ->; apply Hp; now left.
    + exists m'; split; [|split].
      * cbn; unfold bind; now rewrite Run1.
      * intros p Hp; cbn in Hp.
        rewrite (Agree p) by (intros Hin; apply Hp; now right).
        apply Other1; intros ->; apply Hp; now left.
      * intros c v old [ <- | Hc] Hv Ho.
        -- rewrite Ev0 in Hv; rewrite Eo0 in Ho.
           injection Hv as <-; injection Ho as <-.
           unfold load in *; rewrite (Agree (addr c0) Hnotin); exact L1.
        -- apply (Vals c v old Hc).
           ++ now rewrite (Hsrc1 c Hc).
           ++ now rewrite (Hdst1 c Hc).
Qed.

End AssignLoop.

(* ================================================================== *)
(** ** The expression-template example *)

Module ExpTemplateProofs.
Import ExpTemplate.

Lemma Eval_agree (e : Exp) (m m' : mem) (i : Z) :
  (forall a, In a (operands e) ->
     load m' (ptr_add (dptr a) i) = load m (ptr_add (dptr a) i)) ->
  Eval e m' i = Eval e m i.
Proof.
  induction e as [v|OP l IHl r IHr]; cbn; intros H.
  - apply H; now left.
  - rewrite IHl, IHr; [reflexivity| |]; intros a Ha; apply H, in_or_app; auto.
Qed.

Lemma Eval_defined (e : Exp) (m : mem) (i : Z) :
  (forall a, In a (operands e) -> load m (ptr_add (dptr a) i) <> None) ->
  Eval e m i <> None.
Proof.
  induction e as [v|OP l IHl r IHr]; cbn; intros H.
  - apply H; now left.
  - destruct (Eval l m i) eqn:El.
    + destruct (Eval r m i) eqn:Er; [discriminate|].
      exfalso; apply IHr; [|reflexivity]. intros a Ha; apply H, in_or_app; auto.
    + exfalso; apply IHl; [|reflexivity]. intros a Ha; apply H, in_or_app; auto.
Qed.

Lemma assign_body (dst : Vec) (src : Exp) (i : Z) (m : mem) :
  (v <- rd (fun m => Eval src m i) ;; wr (ptr_add (dptr dst) i) v) m
  = assign_cell (fun i => ptr_add (dptr dst) i) (fun m i => Eval src m i)
      (fun _ v => v) i m.
Proof.
  unfold assign_cell, bind, rd, wr, store, load.
  destruct (Eval src m i); [|reflexivity].
  destruct (m (ptr_add (dptr dst) i)); reflexivity.
Qed.

(** [dst = src] for an arbitrary expression: every cell of the destination
    receives the value of the expression at that index. *)
Lemma assign_spec (dst : Vec) (src : Exp) (m : mem) :
  holds m dst (len dst) ->
  (forall a, In a (operands src) -> compatible m dst a) ->
  exists m',
    assign dst src m = (m', Ok tt) /\
    (forall i, 0 <= i < len dst ->
       exists v, Eval src m i = Some v /\
                 load m' (ptr_add (dptr dst) i) = Some v) /\
    agree_except (map (fun i => ptr_add (dptr dst) i) (upto (len dst))) m m'.
Proof.
  intros Hdst Hops.
  destruct (foreach_assign_cell (fun i => ptr_add (dptr dst) i)
              (fun m i => Eval src m i) (fun _ v => v) (upto (len dst)) m)
    as [m' [Run [Agree Vals]]].
  - apply Injective_map_NoDup; [|apply NoDup_upto].
    intros a b; apply ptr_add_inj.
  - intros i Hi; apply Hdst, In_upto, Hi.
  - intros i Hi; apply In_upto in Hi; apply Eval_defined.
    intros a Ha; apply (proj1 (Hops a Ha)); assumption.
  - intros pre i post m1 E Hag.
    assert (Hi : 0 <= i < len dst).
    { apply In_upto; rewrite E; apply in_or_app; right; now left. }
    apply Eval_agree; intros a Ha; apply Hag.
    intros Hin; apply in_map_iff in Hin; destruct Hin as [j [Ej Hj]].
    apply (upto_split _ _ _ _ E) in Hj.
    destruct (Hops a Ha) as [_ Hno].
    unfold ptr_add in Ej; injection Ej as Eb Eo.
    destruct (Hno (eq_sym Eb)); lia.
  - exists m'; split; [|split].
    + unfold assign; rewrite <- Run; apply foreach_ext.
      intros; apply assign_body.
    + intros i Hi.
      destruct (Eval src m i) as [v|] eqn:Ev.
      * exists v; split; [reflexivity|].
        destruct (load m (ptr_add (dptr dst) i)) as [old|] eqn:Eo.
        -- apply (Vals i v old); [apply In_upto|..]; assumption.
        -- exfalso; apply (Hdst i Hi); assumption.
      * exfalso; revert Ev; apply Eval_defined.
        intros a Ha; apply (proj1 (Hops a Ha)); assumption.
    + exact Agree.
Qed.

(** C1. For every destination vector [dst], every binary operator [OP] and
    all operand vectors [a], [b] compatible with [dst], the assignment
    [dst = F<OP>(a, b)] runs to completion and leaves [OP(a[i], b[i])] in
    [dst[i]] for every index [i] of [dst] (the operand values being those
    before the assignment); and [main], which evaluates
    [A = B * F<maximum>(C, B)] with [B = {2,3,4}] and [C = {3,4,5}], prints
    [A = {6, 12, 20}]. *)
Theorem vec_assign_binary_elementwise :
  (forall (OP : float -> float -> float) (dst a b : Vec) (m : mem),
      holds m dst (len dst) -> compatible m dst a -> compatible m dst b ->
      exists m',
        assign dst (F OP (EVec a) (EVec b)) m = (m', Ok tt) /\
        forall i, 0 <= i < len dst ->
          exists x y,
            load m (ptr_add (dptr a) i) = Some x /\
            load m (ptr_add (dptr b) i) = Some y /\
            load m' (ptr_add (dptr dst) i) = Some (OP x y))
  /\ main = Ok [ Some (0, of_Z 6, of_Z 2, of_Z 3);
                 Some (1, of_Z 12, of_Z 3, of_Z 4);
                 Some (2, of_Z 20, of_Z 4, of_Z 5) ].
Proof.
  split; [|vm_compute; reflexivity].
  intros OP dst a b m Hdst Ha Hb.
  destruct (assign_spec dst (F OP (EVec a) (EVec b)) m Hdst) as [m' [Run [Vals _]]].
  - cbn; intros v [ <- | [ <- | [] ] ]; assumption.
  - exists m'; split; [exact Run|].
    intros i Hi; destruct (Vals i Hi) as [v [Ev Lv]]; cbn in Ev.
    destruct (load m (ptr_add (dptr a) i)) as [x|]; [|discriminate].
    destruct (load m (ptr_add (dptr b) i)) as [y|]; [|discriminate].
    injection Ev as <-; exists x, y; auto.
Qed.

Lemma main_store_holds (v : Vec) :
  v = A \/ v = B \/ v = C -> holds main_store v 3.
Proof.
  intros Hv i Hi.
  assert (Ei : i = 0 \/ i = 1 \/ i = 2) by lia.
  destruct Hv as [ -> | [ -> | -> ] ]; destruct Ei as [ -> | [ -> | -> ] ];
    vm_compute; discriminate.
Qed.

(** C1 at [A = B * C] in the store of [main]. *)
Lemma vec_assign_binary_elementwise_witness :
  exists m',
    assign A (F mul_Map (EVec B) (EVec C)) main_store = (m', Ok tt) /\
    forall i, 0 <= i < len A ->
      exists x y,
        load main_store (ptr_add (dptr B) i) = Some x /\
        load main_store (ptr_add (dptr C) i) = Some y /\
        load m' (ptr_add (dptr A) i) = Some (mul_Map x y).
Proof.
  apply (proj1 vec_assign_binary_elementwise mul_Map A B C main_store).
  - apply main_store_holds; auto.
  - split; [apply main_store_holds; auto | intros E; vm_compute in E; discriminate].
  - split; [apply main_store_holds; auto | intros E; vm_compute in E; discriminate].
Defined.

End ExpTemplateProofs.

(* ================================================================== *)
(** ** The expression engine *)

Module ExprEngineProofs.
Import ExprEngine.

(** *** Static type inference *)

Lemma ExpInfo_kDim_lower_bound (E : ExpType) :
  ranks_nonneg E -> -1 <= ExpInfo_kDim E.
Proof.
  induction E as [|E IH|D dim|T _ Src IH dim|TA IH|TA IHa TB IHb|TA _ TB _ lt rt|name];
    cbn [ExpInfo_kDim ranks_nonneg]; intros H; try lia; auto.
  - destruct H as [_ Hd]; destruct (ExpInfo_kDim Src >=? 0); lia.
  - destruct H as [Ha Hb]; specialize (IHa Ha); specialize (IHb Hb).
    destruct ((ExpInfo_kDim TA >=? 0) && (ExpInfo_kDim TB >=? 0)); [|lia].
    destruct (ExpInfo_kDim TA =? 0); [lia|].
    destruct ((ExpInfo_kDim TB =? 0) || (ExpInfo_kDim TA =? ExpInfo_kDim TB)); lia.
Qed.

(** C3. The dimension inferred for a binary map expression follows the
    rule of the specification: when an operand has dimension 0 the result
    is the dimension of the other operand; otherwise it is the common
    dimension when the two agree and -1 when they differ; and -1 in either
    operand gives -1. *)
Theorem ExpInfo_BinaryMapExp_kDim (TA TB : ExpType) :
  ranks_nonneg TA -> ranks_nonneg TB ->
  ExpInfo_kDim (TBinaryMapExp TA TB)
  = binary_dim_rule (ExpInfo_kDim TA) (ExpInfo_kDim TB)
  /\ (ExpInfo_kDim TA = -1 \/ ExpInfo_kDim TB = -1 ->
      ExpInfo_kDim (TBinaryMapExp TA TB) = -1).
Proof.
  intros Ha Hb.
  apply ExpInfo_kDim_lower_bound in Ha; apply ExpInfo_kDim_lower_bound in Hb.
  cbn [ExpInfo_kDim]; unfold binary_dim_rule.
  set (l := ExpInfo_kDim TA) in *; set (r := ExpInfo_kDim TB) in *.
  destruct (Z.geb_spec l 0), (Z.geb_spec r 0), (Z.eqb_spec l 0),
    (Z.eqb_spec r 0), (Z.eqb_spec l r); cbn; split; intros; lia.
Qed.

Lemma ExpInfo_BinaryMapExp_kDim_witness :
  ExpInfo_kDim (TBinaryMapExp (TTensor cpu 2) TScalarExp)
  = binary_dim_rule (ExpInfo_kDim (TTensor cpu 2)) (ExpInfo_kDim TScalarExp)
  /\ (ExpInfo_kDim (TTensor cpu 2) = -1 \/ ExpInfo_kDim TScalarExp = -1 ->
      ExpInfo_kDim (TBinaryMapExp (TTensor cpu 2) TScalarExp) = -1).
Proof.
  apply (ExpInfo_BinaryMapExp_kDim (TTensor cpu 2) TScalarExp); simpl; [lia | exact I].
Defined.

(** C9. An expression type that no specialization of [ExpInfo] matches has
    dimension -1 and device mask 0, and so passes neither the map check nor
    the reduce check, whatever the destination dimension and device. *)
Theorem ExpInfo_default_never_passes (E : ExpType) :
  ExpInfo_specialized E = false ->
  ExpInfo_kDim E = -1 /\ ExpInfo_kDevMask E = 0 /\
  forall (D : Device) (dim : Z),
    TypeCheck_kMapPass D dim E = false /\ TypeCheck_kRedPass D dim E = false.
Proof.
  intros H.
  assert (Hd : ExpInfo_kDim E = -1 /\ ExpInfo_kDevMask E = 0)
    by (destruct E; try discriminate H; split; reflexivity).
  destruct Hd as [Hk Hm]; repeat split; auto;
    unfold TypeCheck_kMapPass, TypeCheck_kRedPass, TypeCheck_kDevPass;
    rewrite Hm, Z.land_0_l; cbn; apply andb_false_r.
Qed.

Lemma ExpInfo_default_never_passes_witness :
  ExpInfo_kDim (TDotExp (TTensor cpu 2) (TTensor cpu 2) false false) = -1 /\
  ExpInfo_kDevMask (TDotExp (TTensor cpu 2) (TTensor cpu 2) false false) = 0 /\
  forall (D : Device) (dim : Z),
    TypeCheck_kMapPass D dim (TDotExp (TTensor cpu 2) (TTensor cpu 2) false false) = false /\
    TypeCheck_kRedPass D dim (TDotExp (TTensor cpu 2) (TTensor cpu 2) false false) = false.
Proof.
  apply (ExpInfo_default_never_passes
           (TDotExp (TTensor cpu 2) (TTensor cpu 2) false false)).
  reflexivity.
Defined.

(** *** Plans *)

(** C7. The plan of [Transpose(Transpose(A))] evaluates, at every
    coordinate, to what the plan of [A] evaluates to, because a transpose
    plan evaluates its child with row and column swapped. *)
Theorem transpose_twice_is_identity (A : Exp) (m : mem) (row col : index_t) :
  Plan_Eval (MakePlan (TransposeExp (TransposeExp A))) m row col
  = Plan_Eval (MakePlan A) m row col
  /\ Plan_Eval (MakePlan (TransposeExp A)) m row col
     = Plan_Eval (MakePlan A) m col row.
Proof. split; reflexivity. Qed.

(** *** The dot engine *)

(** C10. [DotEngine] has an evaluation exactly for the rank signatures
    (2,2,2) with any flags, (1,1,2) with the left flag false, and (2,1,1)
    with the flags (true, false); for every other combination only the
    declaration of the primary template is left, and the complex engine
    has nothing to run. *)
Theorem DotEngine_dispatch_is_partial (J : Indeterminate) (SV : Saver)
    (ddim ldim rdim : Z) (ltrans rtrans : bool) :
  (DotEngine_Eval J SV ddim ldim rdim ltrans rtrans <> None <->
     (ddim = 2 /\ ldim = 2 /\ rdim = 2) \/
     (ddim = 1 /\ ldim = 1 /\ rdim = 2 /\ ltrans = false) \/
     (ddim = 2 /\ ldim = 1 /\ rdim = 1 /\ ltrans = true /\ rtrans = false))
  /\ (forall (dst : Tensor) (exp : DotExp) (m : mem),
        rank dst = ddim -> rank (dot_lhs_ exp) = ldim -> rank (dot_rhs_ exp) = rdim ->
        dot_ltrans exp = ltrans -> dot_rtrans exp = rtrans ->
        DotEngine_Eval J SV ddim ldim rdim ltrans rtrans = None ->
        ExpComplexEngine_Eval J SV dst exp m = (m, Undefined)).
Proof.
  split.
  - unfold DotEngine_Eval.
    destruct (Z.eqb_spec ddim 2), (Z.eqb_spec ddim 1), (Z.eqb_spec ldim 2),
      (Z.eqb_spec ldim 1), (Z.eqb_spec rdim 2), (Z.eqb_spec rdim 1),
      ltrans, rtrans; cbn; split; intros H;
      first [ discriminate | congruence | lia
            | (exfalso; intuition (congruence || lia))
            | intuition (congruence || lia) ].
  - intros dst exp m <- <- <- <- <- H.
    unfold ExpComplexEngine_Eval; rewrite H; reflexivity.
Qed.

(** *** Shape consistency *)

Lemma list_eqb_eq (l1 l2 : list index_t) : list_eqb l1 l2 = true <-> l1 = l2.
Proof.
  revert l2; induction l1 as [|a l1 IH]; intros [|b l2]; cbn;
    try (split; [discriminate|discriminate]); [split; reflexivity|].
  rewrite andb_true_iff, Z.eqb_eq, IH.
  split; [intros [-> ->]; reflexivity | intros E; inversion E; auto].
Qed.

Lemma Shape_eqb_false (s1 s2 : Shape) :
  shape_ s1 <> shape_ s2 -> Shape_eqb s1 s2 = false.
Proof.
  intros N; unfold Shape_eqb; destruct (list_eqb _ _) eqn:E; [|reflexivity].
  apply list_eqb_eq in E; contradiction.
Qed.

Lemma scalar_marker (J : Indeterminate) (dim : nat) :
  Shape_get (Shape_set (Shape_default J dim) 0 0) 0 = 0.
Proof. destruct dim; reflexivity. Qed.

(** C4. The shape of a binary map expression is derived from the shapes
    of its two operands: when exactly one of them is the scalar marker
    (extent 0 on axis 0) the result is the other one; when neither is, the
    two are compared axis by axis, the common shape is the result when
    they are equal and the assertion fails when they are not; and a scalar
    expression derives to a shape with extent 0 on axis 0. *)
Theorem ShapeCheck_BinaryMapExp (J : Indeterminate) (dim : nat)
    (OP : float -> float -> float) (lhs rhs : Exp) (shape1 shape2 : Shape) :
  ShapeCheck_Check J dim lhs = Ok shape1 ->
  ShapeCheck_Check J dim rhs = Ok shape2 ->
  (Shape_get shape1 0 = 0 -> Shape_get shape2 0 <> 0 ->
     ShapeCheck_Check J dim (BinaryMapExp OP lhs rhs) = Ok shape2) /\
  (Shape_get shape1 0 <> 0 -> Shape_get shape2 0 = 0 ->
     ShapeCheck_Check J dim (BinaryMapExp OP lhs rhs) = Ok shape1) /\
  (Shape_get shape1 0 <> 0 -> Shape_get shape2 0 <> 0 ->
     (shape_ shape1 = shape_ shape2 ->
        ShapeCheck_Check J dim (BinaryMapExp OP lhs rhs) = Ok shape1) /\
     (shape_ shape1 <> shape_ shape2 ->
        ShapeCheck_Check J dim (BinaryMapExp OP lhs rhs)
        = AssertFail BinaryMapExp_mismatch)) /\
  (forall scalar, exists marker,
     ShapeCheck_Check J dim (ScalarExp scalar) = Ok marker /\
     Shape_get marker 0 = 0).
Proof.
  intros H1 H2; cbn [ShapeCheck_Check]; rewrite H1, H2; cbn [obind].
  repeat split.
  - intros Z1 _; rewrite Z1; reflexivity.
  - intros N1 Z2; rewrite Z2.
    destruct (Z.eqb_spec (Shape_get shape1 0) 0); [contradiction|reflexivity].
  - intros E.
    destruct (Z.eqb_spec (Shape_get shape1 0) 0); [contradiction|].
    destruct (Z.eqb_spec (Shape_get shape2 0) 0); [contradiction|].
    unfold Shape_eqb; rewrite (proj2 (list_eqb_eq _ _) E); reflexivity.
  - intros N.
    destruct (Z.eqb_spec (Shape_get shape1 0) 0); [contradiction|].
    destruct (Z.eqb_spec (Shape_get shape2 0) 0); [contradiction|].
    rewrite (Shape_eqb_false _ _ N); reflexivity.
  - intros scalar; eexists; split; [reflexivity | apply scalar_marker].
Qed.

Lemma ShapeCheck_BinaryMapExp_witness :
  let OP := fmul in
  let lhs := TensorExp mm_lhs in
  let rhs := TensorExp mm_dst in
  (Shape_get (shape mm_lhs) 0 = 0 -> Shape_get (shape mm_dst) 0 <> 0 ->
     ShapeCheck_Check J0 2 (BinaryMapExp OP lhs rhs) = Ok (shape mm_dst)) /\
  (Shape_get (shape mm_lhs) 0 <> 0 -> Shape_get (shape mm_dst) 0 = 0 ->
     ShapeCheck_Check J0 2 (BinaryMapExp OP lhs rhs) = Ok (shape mm_lhs)) /\
  (Shape_get (shape mm_lhs) 0 <> 0 -> Shape_get (shape mm_dst) 0 <> 0 ->
     (shape_ (shape mm_lhs) = shape_ (shape mm_dst) ->
        ShapeCheck_Check J0 2 (BinaryMapExp OP lhs rhs) = Ok (shape mm_lhs)) /\
     (shape_ (shape mm_lhs) <> shape_ (shape mm_dst) ->
        ShapeCheck_Check J0 2 (BinaryMapExp OP lhs rhs)
        = AssertFail BinaryMapExp_mismatch)) /\
  (forall scalar, exists marker,
     ShapeCheck_Check J0 2 (ScalarExp scalar) = Ok marker /\
     Shape_get marker 0 = 0).
Proof.
  apply (ShapeCheck_BinaryMapExp J0 2 fmul (TensorExp mm_lhs) (TensorExp mm_dst)
           (shape mm_lhs) (shape mm_dst)); reflexivity.
Defined.

(** *** The matrix product *)

Lemma GetShape_effective (J : Indeterminate) (t : Tensor) (transpose : bool) :
  rows (GetShape J (shape t) transpose) = effective_rows t transpose /\
  cols (GetShape J (shape t) transpose) = effective_cols t transpose.
Proof. destruct transpose; split; reflexivity. Qed.

(** The two cases of the (2,2,2) evaluation. *)
Lemma DotEngine_2_2_2_Eval_cases (J : Indeterminate) (SV : Saver)
    (transpose_left transpose_right : bool)
    (dst lhs rhs : Tensor) (scale : float) (m : mem) :
  let agree :=
    rows (shape dst) = effective_rows lhs transpose_left /\
    cols (shape dst) = effective_cols rhs transpose_right /\
    effective_cols lhs transpose_left = effective_rows rhs transpose_right in
  (agree ->
     DotEngine_2_2_2_Eval J SV transpose_left transpose_right dst lhs rhs scale m
     = BLASEngine_gemm transpose_right transpose_left
         (effective_cols rhs transpose_right)
         (effective_rows lhs transpose_left)
         (effective_rows rhs transpose_right)
         (fmul scale (kAlphaBLAS SV))
         (dptr rhs) (stride_ (shape rhs)) (dptr lhs) (stride_ (shape lhs))
         (kBetaBLAS SV) (dptr dst) (stride_ (shape dst)) m) /\
  (~ agree ->
     DotEngine_2_2_2_Eval J SV transpose_left transpose_right dst lhs rhs scale m
     = (m, AssertFail dot_gemm_mismatch)).
Proof.
  cbv zeta.
  destruct (GetShape_effective J lhs transpose_left) as [Lr Lc].
  destruct (GetShape_effective J rhs transpose_right) as [Rr Rc].
  unfold rows, cols in *.
  unfold DotEngine_2_2_2_Eval, bind, lift, Assert; cbv zeta.
  rewrite Lr, Lc, Rr, Rc.
  split.
  - intros [E1 [E2 E3]]; rewrite E1, E2, E3, !Z.eqb_refl; cbn.
    destruct transpose_left, transpose_right; reflexivity.
  - intros N.
    destruct (Z.eqb_spec (Shape_get (shape dst) 1) (effective_rows lhs transpose_left));
      [|reflexivity].
    destruct (Z.eqb_spec (Shape_get (shape dst) 0) (effective_cols rhs transpose_right));
      [|reflexivity].
    destruct (Z.eqb_spec (effective_cols lhs transpose_left)
                (effective_rows rhs transpose_right)); [|reflexivity].
    exfalso; apply N; auto.
Qed.

(** C2, as the code has it. The (2,2,2) evaluation checks that the
    destination has as many rows as the left operand has effective rows, as
    many columns as the right operand has effective columns, and that the
    left operand's effective columns are the right operand's effective rows
    (effective: after the operand's transpose flag is applied). When the
    check holds the evaluation is the gemm call; when it does not, the
    evaluation fails with the diagnostic that starts with "dot-gemm", and
    the store is as it was. *)
Theorem dot_gemm_shape_check (J : Indeterminate) (SV : Saver)
    (transpose_left transpose_right : bool)
    (dst lhs rhs : Tensor) (scale : float) (m : mem) :
  let agree :=
    rows (shape dst) = effective_rows lhs transpose_left /\
    cols (shape dst) = effective_cols rhs transpose_right /\
    effective_cols lhs transpose_left = effective_rows rhs transpose_right in
  (agree ->
     DotEngine_2_2_2_Eval J SV transpose_left transpose_right dst lhs rhs scale m
     = BLASEngine_gemm transpose_right transpose_left
         (effective_cols rhs transpose_right)
         (effective_rows lhs transpose_left)
         (effective_rows rhs transpose_right)
         (fmul scale (kAlphaBLAS SV))
         (dptr rhs) (stride_ (shape rhs)) (dptr lhs) (stride_ (shape lhs))
         (kBetaBLAS SV) (dptr dst) (stride_ (shape dst)) m) /\
  (~ agree ->
     DotEngine_2_2_2_Eval J SV transpose_left transpose_right dst lhs rhs scale m
     = (m, AssertFail dot_gemm_mismatch)) /\
  prefix "dot-gemm" dot_gemm_mismatch = true.
Proof.
  cbv zeta.
  destruct (DotEngine_2_2_2_Eval_cases J SV transpose_left transpose_right
              dst lhs rhs scale m) as [Hpass Hfail].
  split; [exact Hpass | split; [exact Hfail | reflexivity]].
Qed.

(** C2, as it is stated, fails: for a 2x4 destination, a 2x3 left operand
    and a 3x4 right operand, without transposition, the check in the
    words of the specification is false, under either reading of "rows"
    and "columns", while the evaluation passes its check and runs gemm
    to the end, leaving the product in the destination. *)
Lemma dot_gemm_check_as_stated_fails :
  gemm_check_as_stated rows cols J0 false false mm_dst mm_lhs mm_rhs = false /\
  gemm_check_as_stated cols rows J0 false false mm_dst mm_lhs mm_rhs = false /\
  run_on mm_store 8
    (DotEngine_2_2_2_Eval J0 saveto false false mm_dst mm_lhs mm_rhs one)
  = (Ok tt, Some (map of_Z [1; 2; 3; 0; 4; 5; 6; 0])).
Proof. repeat split; vm_compute; reflexivity. Qed.

(** C6, at the outer product of [X = {1,2}] and [Y = {3,4}] under
    [saveto] (beta = 0), into a destination that holds ones: beta is below
    the threshold, so the evaluation takes the ger branch, and ger adds the
    product to what the destination held: the result is
    [{{4,5},{7,9}}]. The gemm path, on the same input, overwrites the
    destination with [{{3,4},{6,8}}]. *)
Theorem dot_ger_saveto_adds_to_destination :
  flt (kBetaBLAS saveto) lit_1e_6f = true /\
  run_on ger_store 4 (DotEngine_2_1_1_Eval J0 saveto ger_dst ger_X ger_Y one)
  = (Ok tt, Some (map of_Z [4; 5; 7; 9])) /\
  run_on ger_store 4
    (DotEngine_2_2_2_Eval J0 saveto true false ger_dst
       (FlatTo2D ger_X) (FlatTo2D ger_Y) one)
  = (Ok tt, Some (map of_Z [3; 4; 6; 8])).
Proof. repeat split; vm_compute; reflexivity. Qed.

(** The branch taken by the (2,1,1) evaluation once its check has passed. *)
Lemma DotEngine_2_1_1_branches (J : Indeterminate) (SV : Saver)
    (dst lhs rhs : Tensor) (scale : float) (m : mem) :
  Shape_get (shape dst) 1 = Shape_get (shape lhs) 0 ->
  Shape_get (shape dst) 0 = Shape_get (shape rhs) 0 ->
  DotEngine_2_1_1_Eval J SV dst lhs rhs scale m
  = if flt (kBetaBLAS SV) lit_1e_6f
    then BLASEngine_ger (Shape_get (shape rhs) 0) (Shape_get (shape lhs) 0)
           (fmul scale (kAlphaBLAS SV))
           (dptr rhs) 1 (dptr lhs) 1 (dptr dst) (stride_ (shape dst)) m
    else DotEngine_2_2_2_Eval J SV true false dst (FlatTo2D lhs) (FlatTo2D rhs) scale m.
Proof.
  intros E1 E2; unfold DotEngine_2_1_1_Eval, bind, lift, Assert.
  rewrite E1, E2, !Z.eqb_refl; cbn.
  destruct (flt (kBetaBLAS SV) lit_1e_6f); reflexivity.
Qed.

Lemma lit_1e_6f_is_nearest : lit_1e_6f = fdiv (of_Z 1) (of_Z 1000000).
Proof. vm_compute; reflexivity. Qed.

(** *** A failed assertion comes before any write *)

Lemma never_asserts_rd {A} (r : mem -> option A) : never_asserts (rd r).
Proof. intros m m' msg; unfold rd; destruct (r m); intros E; inversion E. Qed.

Lemma never_asserts_wr (p : ptr) (v : float) : never_asserts (wr p v).
Proof. intros m m' msg; unfold wr; destruct (store m p v); intros E; inversion E. Qed.

Lemma never_asserts_bind {A B} (c : M A) (f : A -> M B) :
  never_asserts c -> (forall a, never_asserts (f a)) -> never_asserts (bind c f).
Proof.
  intros Hc Hf m m' msg; unfold bind.
  destruct (c m) as [m1 [a|msg1| |]] eqn:E; try (intros E'; inversion E'; fail).
  - apply Hf.
  - exfalso; exact (Hc _ _ _ E).
Qed.

Lemma never_asserts_foreach {C : Type} (cs : list C) (body : C -> M unit) :
  (forall c, never_asserts (body c)) -> never_asserts (foreach cs body).
Proof.
  intros Hb; induction cs as [|c cs IH]; cbn.
  - intros m m' msg E; inversion E.
  - apply never_asserts_bind; auto.
Qed.

Lemma never_asserts_assign_cell {C : Type} (addr : C -> ptr)
    (src : mem -> C -> option float) (save : float -> float -> float) (c : C) :
  never_asserts (assign_cell addr src save c).
Proof.
  unfold assign_cell.
  repeat (apply never_asserts_bind; [apply never_asserts_rd|intros ?]).
  apply never_asserts_wr.
Qed.

Lemma never_asserts_axpby_cell (alpha ab beta : float) (c : ptr) :
  never_asserts (axpby_cell alpha ab beta c).
Proof.
  unfold axpby_cell; destruct (feq beta zero); [apply never_asserts_wr|].
  apply never_asserts_bind; [apply never_asserts_rd|intros ?; apply never_asserts_wr].
Qed.

Lemma never_asserts_gemm transa transb m n k alpha A lda B ldb beta C ldc :
  never_asserts (BLASEngine_gemm transa transb m n k alpha A lda B ldb beta C ldc).
Proof.
  unfold BLASEngine_gemm.
  apply never_asserts_foreach; intros j; apply never_asserts_foreach; intros i.
  apply never_asserts_bind; [apply never_asserts_rd|intros ?].
  apply never_asserts_axpby_cell.
Qed.

Lemma never_asserts_gemv trans m n alpha A lda X incX beta Y incY :
  never_asserts (BLASEngine_gemv trans m n alpha A lda X incX beta Y incY).
Proof.
  unfold BLASEngine_gemv; destruct trans;
    apply never_asserts_foreach; intros j;
    (apply never_asserts_bind; [apply never_asserts_rd|intros ?]);
    apply never_asserts_axpby_cell.
Qed.

Lemma never_asserts_ger m n alpha X incX Y incY A lda :
  never_asserts (BLASEngine_ger m n alpha X incX Y incY A lda).
Proof.
  unfold BLASEngine_ger.
  apply never_asserts_foreach; intros j; apply never_asserts_foreach; intros i.
  repeat (apply never_asserts_bind; [apply never_asserts_rd|intros ?]).
  apply never_asserts_wr.
Qed.

Lemma never_asserts_MapPlan (SV : Saver) (dst : Tensor) (plan : Plan) :
  never_asserts (MapPlan SV dst plan).
Proof.
  unfold MapPlan.
  apply never_asserts_foreach; intros y; apply never_asserts_foreach; intros x.
  apply never_asserts_assign_cell.
Qed.

Lemma fails_clean_never {A} (c : M A) : never_asserts c -> fails_clean c.
Proof. intros H m m' msg E; exfalso; exact (H _ _ _ E). Qed.

Lemma fails_clean_after_check {A B} (o : outcome A) (c : M B) :
  fails_clean c -> fails_clean (lift o ;;; c).
Proof.
  intros Hc m m' msg; unfold bind, lift.
  destruct o; intros E; try (inversion E; reflexivity).
  exact (Hc _ _ _ E).
Qed.

Lemma fails_clean_2_2_2 J SV tl tr dst lhs rhs scale :
  fails_clean (DotEngine_2_2_2_Eval J SV tl tr dst lhs rhs scale).
Proof.
  unfold DotEngine_2_2_2_Eval; cbv zeta.
  apply fails_clean_after_check, fails_clean_never, never_asserts_gemm.
Qed.

Lemma fails_clean_1_1_2 J SV tr dst lhs rhs scale :
  fails_clean (DotEngine_1_1_2_Eval J SV tr dst lhs rhs scale).
Proof.
  unfold DotEngine_1_1_2_Eval; cbv zeta.
  apply fails_clean_after_check, fails_clean_never, never_asserts_gemv.
Qed.

Lemma fails_clean_2_1_1 J SV dst lhs rhs scale :
  fails_clean (DotEngine_2_1_1_Eval J SV dst lhs rhs scale).
Proof.
  unfold DotEngine_2_1_1_Eval.
  apply fails_clean_after_check.
  destruct (flt (kBetaBLAS SV) lit_1e_6f).
  - apply fails_clean_never, never_asserts_ger.
  - apply fails_clean_2_2_2.
Qed.

Lemma fails_clean_ExpEngine (J : Indeterminate) (SV : Saver) (dst : Tensor)
    (exp : AnyExp) :
  fails_clean (ExpEngine_Eval J SV dst exp).
Proof.
  destruct exp as [e|e]; cbn [ExpEngine_Eval].
  - unfold MapExp.
    apply fails_clean_after_check, fails_clean_never, never_asserts_MapPlan.
  - unfold ExpComplexEngine_Eval, DotEngine_Eval.
    repeat match goal with
           | |- context [if ?b then _ else _] => destruct b
           end;
      first [ apply fails_clean_2_2_2 | apply fails_clean_1_1_2
            | apply fails_clean_2_1_1
            | (intros m m' msg E; inversion E) ].
Qed.

(** C5. An evaluation that ends in a failed shape assertion has written
    nothing: the store, and with it the destination buffer, is the one
    before the evaluation. The assertion does fail for a binary map of two
    non-scalar operands whose shapes differ, and for a matrix product whose
    operand extents do not agree. *)
Theorem shape_mismatch_writes_nothing (J : Indeterminate) (SV : Saver)
    (dst : Tensor) :
  (forall (exp : AnyExp) (m m' : mem) (msg : string),
     ExpEngine_Eval J SV dst exp m = (m', AssertFail msg) -> m' = m) /\
  (forall OP (lhs rhs : Exp) (shape1 shape2 : Shape) (m : mem),
     ShapeCheck_Check J (List.length (shape_ (shape dst))) lhs = Ok shape1 ->
     ShapeCheck_Check J (List.length (shape_ (shape dst))) rhs = Ok shape2 ->
     Shape_get shape1 0 <> 0 -> Shape_get shape2 0 <> 0 ->
     shape_ shape1 <> shape_ shape2 ->
     ExpEngine_Eval J SV dst (MapperOrContainer (BinaryMapExp OP lhs rhs)) m
     = (m, AssertFail BinaryMapExp_mismatch)) /\
  (forall (ltrans rtrans : bool) (lhs rhs : Tensor) (scale : float) (m : mem),
     rank dst = 2 -> rank lhs = 2 -> rank rhs = 2 ->
     ~ (rows (shape dst) = effective_rows lhs ltrans /\
        cols (shape dst) = effective_cols rhs rtrans /\
        effective_cols lhs ltrans = effective_rows rhs rtrans) ->
     ExpEngine_Eval J SV dst (Complex (mkDotExp lhs rhs ltrans rtrans scale)) m
     = (m, AssertFail dot_gemm_mismatch)).
Proof.
  split; [|split].
  - intros exp; apply fails_clean_ExpEngine.
  - intros OP lhs rhs shape1 shape2 m H1 H2 N1 N2 N.
    cbn [ExpEngine_Eval]; unfold MapExp, bind, lift.
    cbn [ShapeCheck_Check]; rewrite H1, H2; cbn [obind].
    destruct (Z.eqb_spec (Shape_get shape1 0) 0); [contradiction|].
    destruct (Z.eqb_spec (Shape_get shape2 0) 0); [contradiction|].
    rewrite (Shape_eqb_false _ _ N); reflexivity.
  - intros ltrans rtrans lhs rhs scale m Rd Rl Rr N.
    cbn [ExpEngine_Eval]; unfold ExpComplexEngine_Eval, DotEngine_Eval.
    cbn [dot_lhs_ dot_rhs_ dot_ltrans dot_rtrans dot_scale_].
    rewrite Rd, Rl, Rr; cbn.
    apply (DotEngine_2_2_2_Eval_cases J SV ltrans rtrans dst lhs rhs scale m); exact N.
Qed.

Lemma shape_mismatch_writes_nothing_witness :
  ExpEngine_Eval J0 saveto mm_dst
    (MapperOrContainer (BinaryMapExp fmul (TensorExp mm_lhs) (TensorExp mm_dst)))
    mm_store
  = (mm_store, AssertFail BinaryMapExp_mismatch)
  /\ mm_store = mm_store.
Proof.
  assert (H : ExpEngine_Eval J0 saveto mm_dst
                (MapperOrContainer (BinaryMapExp fmul (TensorExp mm_lhs) (TensorExp mm_dst)))
                mm_store
              = (mm_store, AssertFail BinaryMapExp_mismatch)) by reflexivity.
  split; [exact H|].
  exact (proj1 (shape_mismatch_writes_nothing J0 saveto mm_dst) _ _ _ _ H).
Defined.

(** *** The generic evaluator *)

Lemma foreach_app {C : Type} (cs1 cs2 : list C) (body : C -> M unit) (m : mem) :
  foreach (cs1 ++ cs2) body m = (foreach cs1 body ;;; foreach cs2 body) m.
Proof.
  revert m; induction cs1 as [|c cs1 IH]; intros m; [reflexivity|].
  cbn; unfold bind at 1 2 3.
  destruct (body c m) as [m1 [[]| | |]]; try reflexivity.
  rewrite IH; reflexivity.
Qed.

Lemma foreach_map {C D : Type} (f : C -> D) (cs : list C) (body : D -> M unit)
    (m : mem) :
  foreach (map f cs) body m = foreach cs (fun c => body (f c)) m.
Proof.
  revert m; induction cs as [|c cs IH]; intros m; [reflexivity|].
  cbn; unfold bind; destruct (body (f c) m) as [m1 [[]| | |]]; auto.
Qed.

Lemma foreach_nested {Y X : Type} (ys : list Y) (xs : list X)
    (body : Y * X -> M unit) (m : mem) :
  foreach ys (fun y => foreach xs (fun x => body (y, x))) m
  = foreach (flat_map (fun y => map (fun x => (y, x)) xs) ys) body m.
Proof.
  revert m; induction ys as [|y ys IH]; intros m; [reflexivity|].
  cbn [flat_map foreach]; rewrite foreach_app; unfold bind.
  rewrite foreach_map.
  destruct (foreach xs (fun x => body (y, x)) m) as [m1 [[]| | |]]; auto.
Qed.

Lemma MapPlan_grid (SV : Saver) (dst : Tensor) (plan : Plan) (m : mem) :
  MapPlan SV dst plan m
  = foreach (grid dst)
      (assign_cell (fun c : index_t * index_t => Tensor_cell dst (fst c) (snd c))
                   (fun st c => Plan_Eval plan st (fst c) (snd c)) (Save SV)) m.
Proof. unfold MapPlan, grid, nrows, ncols; cbv zeta; apply foreach_nested. Qed.

Lemma In_grid (t : Tensor) (y x : index_t) :
  In (y, x) (grid t) <-> 0 <= y < nrows t /\ 0 <= x < ncols t.
Proof.
  unfold grid; rewrite in_flat_map; split.
  - intros [y' [Hy Hx]]; apply in_map_iff in Hx; destruct Hx as [x' [E Hx]].
    injection E as <- <-; apply In_upto in Hy, Hx; auto.
  - intros [Hy Hx]; exists y; split; [apply In_upto, Hy|].
    apply in_map_iff; exists x; split; [reflexivity | apply In_upto, Hx].
Qed.

Lemma NoDup_pairs {Y X : Type} (ys : list Y) (xs : list X) :
  NoDup ys -> NoDup xs ->
  NoDup (flat_map (fun y => map (fun x => (y, x)) xs) ys).
Proof.
  intros Hy Hx; induction Hy as [|y ys Hnotin Hy IH]; cbn; [constructor|].
  apply NoDup_app; [|exact IH|].
  - apply Injective_map_NoDup; [|exact Hx].
    intros a b E; now injection E.
  - intros [y' x'] H1 H2.
    apply in_map_iff in H1; destruct H1 as [x0 [E _]]; injection E as <- <-.
    apply in_flat_map in H2; destruct H2 as [y1 [Hy1 H2]].
    apply in_map_iff in H2; destruct H2 as [x1 [E _]]; injection E as -> _.
    contradiction.
Qed.

Lemma NoDup_grid (t : Tensor) : NoDup (grid t).
Proof. apply NoDup_pairs; apply NoDup_upto. Qed.

Lemma nrows_rank1 (t : Tensor) : rank t = 1 -> nrows t = 1.
Proof.
  unfold rank, nrows; destruct t as [D p [[|a [|b l]] s]]; cbn; intros H;
    try reflexivity; lia.
Qed.

Lemma Tensor_cell_inj (t : Tensor) (y x y' x' : index_t) :
  layout_ok t ->
  0 <= y < nrows t -> 0 <= x < ncols t ->
  0 <= y' < nrows t -> 0 <= x' < ncols t ->
  Tensor_cell t y x = Tensor_cell t y' x' -> y = y' /\ x = x'.
Proof.
  intros L Hy Hx Hy' Hx'; unfold Tensor_cell.
  destruct (Z.eqb_spec (rank t) 1) as [R|R]; intros E; apply ptr_add_inj in E.
  - rewrite (nrows_rank1 t R) in *; lia.
  - destruct L as [L|[Lc Lr]]; [contradiction|].
    set (s := stride_ (shape t)) in *.
    assert (B : 0 <= y * s + x < 2 ^ 32) by nia.
    assert (B' : 0 <= y' * s + x' < 2 ^ 32) by nia.
    unfold index_wrap in E; rewrite !Z.mod_small in E by assumption.
    assert (y = y') by nia. split; [assumption|subst; lia].
Qed.

Lemma Plan_Eval_Tensor (t : Tensor) (m : mem) (y x : index_t) :
  Plan_Eval (MakePlan (TensorExp t)) m y x = load m (Tensor_cell t y x).
Proof.
  cbn [MakePlan]; unfold Plan_of_Tensor, Tensor_cell.
  destruct (rank t =? 1); reflexivity.
Qed.

Lemma same_extents (a dst : Tensor) :
  shape_ (shape a) = shape_ (shape dst) ->
  rank a = rank dst /\ nrows a = nrows dst /\ ncols a = ncols dst.
Proof.
  intros E; unfold rank, nrows, ncols, FlatTo2D, Shape_FlatTo2D, Shape_get; cbn.
  rewrite E; auto.
Qed.

(** C8. The plan of a scalar evaluates to the stored constant at every
    coordinate; and for every tensor [A], scalar [s] and operator [OP]
    (multiplication among them), the assignment [dst = OP(A, s)] runs to
    completion and leaves [OP(A[y][x], s)] in [dst[y][x]] at every
    coordinate of the destination. *)
Theorem scalar_broadcasts :
  (forall (s : float) (m : mem) (row col : index_t),
     Plan_Eval (MakePlan (ScalarExp s)) m row col = Some s) /\
  (forall (J : Indeterminate) (OP : float -> float -> float)
          (dst A : Tensor) (s : float) (m : mem),
     shape_ (shape A) = shape_ (shape dst) ->
     layout_ok dst -> allocated m dst -> allocated m A -> no_hazard dst A ->
     exists m',
       ExpEngine_Eval J saveto dst
         (MapperOrContainer (BinaryMapExp OP (TensorExp A) (ScalarExp s))) m
       = (m', Ok tt) /\
       forall y x, 0 <= y < nrows dst -> 0 <= x < ncols dst ->
         exists a, load m (Tensor_cell A y x) = Some a /\
                   load m' (Tensor_cell dst y x) = Some (OP a s)).
Proof.
  split; [reflexivity|].
  intros J OP dst A s m Es L Hdst HA Hz.
  destruct (same_extents A dst Es) as [Er [Enr Enc]].
  set (addr := fun c : index_t * index_t => Tensor_cell dst (fst c) (snd c)).
  set (src := fun (st : mem) (c : index_t * index_t) =>
                Plan_Eval (MakePlan (BinaryMapExp OP (TensorExp A) (ScalarExp s)))
                          st (fst c) (snd c)).
  assert (Hsrc : forall st c, src st c =
            match load st (Tensor_cell A (fst c) (snd c)) with
            | Some a => Some (OP a s) | None => None end).
  { intros st c; unfold src.
    change (Plan_Eval (MakePlan (BinaryMapExp OP (TensorExp A) (ScalarExp s))) st (fst c) (snd c))
      with (match Plan_Eval (MakePlan (TensorExp A)) st (fst c) (snd c) with
            | Some a => Some (OP a s) | None => None end).
    rewrite Plan_Eval_Tensor; reflexivity. }
  assert (ND : NoDup (map addr (grid dst))).
  { apply Injective_map_NoDup_in; [|apply NoDup_grid].
    intros [y x] [y' x'] H1 H2 E; apply In_grid in H1, H2.
    destruct (Tensor_cell_inj dst y x y' x' L) as [-> ->]; tauto. }
  destruct (foreach_assign_cell addr src (Save saveto) (grid dst) m ND)
    as [m' [Run [_ Vals]]].
  - intros [y x] Hc; apply In_grid in Hc; apply Hdst; tauto.
  - intros [y x] Hc; apply In_grid in Hc; rewrite Hsrc; cbn [fst snd].
    destruct (load m (Tensor_cell A y x)) eqn:El; [discriminate|].
    exfalso; revert El; apply HA; rewrite ?Enr, ?Enc; tauto.
  - intros pre [y x] post m1 E Hag; rewrite !Hsrc; cbn [fst snd].
    unfold load; rewrite (Hag (Tensor_cell A y x)); [reflexivity|].
    intros Hin; apply in_map_iff in Hin; destruct Hin as [[y0 x0] [E0 H0]].
    unfold addr in E0; cbn [fst snd] in E0.
    destruct Hz as [Hb|[Hp Hs]].
    + apply Hb; unfold Tensor_cell in E0.
      destruct (rank dst =? 1), (rank A =? 1); unfold ptr_add in E0;
        injection E0 as Eb _; auto.
    + assert (EA : Tensor_cell A y x = Tensor_cell dst y x).
      { unfold Tensor_cell; rewrite Er, Hp, Hs; reflexivity. }
      rewrite EA in E0; rewrite E, map_app in ND; cbn [map] in ND.
      apply NoDup_remove_2 in ND; apply ND, in_or_app; left.
      replace (addr (y, x)) with (addr (y0, x0)) by exact E0.
      now apply in_map.
  - exists m'; split.
    + cbn [ExpEngine_Eval]; unfold MapExp, bind, lift.
      cbn [ShapeCheck_Check]; rewrite Es, Nat.eqb_refl; cbn [obind].
      assert (Ok_ : exists sh,
                 (if Shape_get (shape A) 0 =? 0
                  then Ok (Shape_set (Shape_default J (List.length (shape_ (shape dst)))) 0 0)
                  else if Shape_get (Shape_set (Shape_default J (List.length (shape_ (shape dst)))) 0 0) 0 =? 0
                       then Ok (shape A)
                       else obind (Assert (Shape_eqb (shape A)
                                     (Shape_set (Shape_default J (List.length (shape_ (shape dst)))) 0 0))
                                     BinaryMapExp_mismatch) (fun _ => Ok (shape A)))
                 = Ok sh).
      { rewrite scalar_marker, Z.eqb_refl.
        destruct (Shape_get (shape A) 0 =? 0); eexists; reflexivity. }
      destruct Ok_ as [sh ->].
      rewrite MapPlan_grid; exact Run.
    + intros y x Hy Hx.
      destruct (load m (Tensor_cell A y x)) as [a|] eqn:Ea;
        [|exfalso; revert Ea; apply HA; rewrite ?Enr, ?Enc; tauto].
      exists a; split; [reflexivity|].
      destruct (load m (Tensor_cell dst y x)) as [old|] eqn:Eo;
        [|exfalso; revert Eo; apply Hdst; tauto].
      apply (Vals (y, x) (OP a s) old).
      * apply In_grid; tauto.
      * rewrite Hsrc; cbn [fst snd]; now rewrite Ea.
      * exact Eo.
Qed.

Lemma ger_dst_allocated : allocated ger_store ger_dst.
Proof.
  intros y x Hy Hx.
  change (nrows ger_dst) with 2 in Hy; change (ncols ger_dst) with 2 in Hx.
  assert (Ey : y = 0 \/ y = 1) by lia; assert (Ex : x = 0 \/ x = 1) by lia.
  destruct Ey as [ -> | -> ], Ex as [ -> | -> ]; vm_compute; discriminate.
Qed.

(** C8 at the in-place scaling [dst = dst * 3] of a 2x2 tensor. *)
Lemma scalar_broadcasts_witness :
  exists m',
    ExpEngine_Eval J0 saveto ger_dst
      (MapperOrContainer (BinaryMapExp fmul (TensorExp ger_dst) (ScalarExp (of_Z 3))))
      ger_store
    = (m', Ok tt) /\
    forall y x, 0 <= y < nrows ger_dst -> 0 <= x < ncols ger_dst ->
      exists a, load ger_store (Tensor_cell ger_dst y x) = Some a /\
                load m' (Tensor_cell ger_dst y x) = Some (fmul a (of_Z 3)).
Proof.
  apply (proj2 scalar_broadcasts J0 fmul ger_dst ger_dst (of_Z 3) ger_store).
  - reflexivity.
  - right; split; vm_compute; discriminate.
  - exact ger_dst_allocated.
  - exact ger_dst_allocated.
  - right; split; reflexivity.
Defined.

(** C10 at the signature (2,1,1) with both flags false. *)
Lemma DotEngine_dispatch_is_partial_witness :
  ExpComplexEngine_Eval J0 saveto ger_dst (mkDotExp ger_X ger_Y false false one)
    ger_store
  = (ger_store, Undefined).
Proof.
  apply (proj2 (DotEngine_dispatch_is_partial J0 saveto 2 1 1 false false));
    reflexivity.
Defined.

(** C2 (as the code has it) at the 2x3 by 3x4 product. *)
Lemma dot_gemm_shape_check_witness :
  DotEngine_2_2_2_Eval J0 saveto false false mm_dst mm_lhs mm_rhs one mm_store
  = BLASEngine_gemm false false 4 2 3 (fmul one (kAlphaBLAS saveto))
      (dptr mm_rhs) 4 (dptr mm_lhs) 3 (kBetaBLAS saveto) (dptr mm_dst) 4 mm_store.
Proof.
  apply (proj1 (dot_gemm_shape_check J0 saveto false false mm_dst mm_lhs mm_rhs
                  one mm_store)).
  repeat split; reflexivity.
Defined.

End ExprEngineProofs.

(* ================================================================== *)
(** ** Further properties of the expression-template example *)

Module ExpTemplateExtras.
Import ExpTemplate.

Lemma ptr_eq_dec (p q : ptr) : {p = q} + {p <> q}.
Proof. decide equality; [apply Z.eq_dec | apply Nat.eq_dec]. Qed.

(** X1. [dst = src] for an expression tree of any depth: the loop runs to
    completion, every [dst[i]] receives the value the whole tree has at
    index [i] (in the store before the assignment), and no cell other
    than [dst[0 .. len-1]] changes. *)
Theorem assign_any_expression (dst : Vec) (src : Exp) (m : mem) :
  holds m dst (len dst) ->
  (forall a, In a (operands src) -> compatible m dst a) ->
  exists m',
    assign dst src m = (m', Ok tt) /\
    (forall i, 0 <= i < len dst ->
       exists v, Eval src m i = Some v /\
                 load m' (ptr_add (dptr dst) i) = Some v) /\
    (forall p, (forall i, 0 <= i < len dst -> p <> ptr_add (dptr dst) i) ->
       load m' p = load m p).
Proof.
  intros Hd Ho.
  destruct (ExpTemplateProofs.assign_spec dst src m Hd Ho) as [m' [Run [Vals Fr]]].
  exists m'; split; [exact Run|split; [exact Vals|]].
  intros p Hp; apply Fr; intros Hin.
  apply in_map_iff in Hin; destruct Hin as [i [E Hi]].
  apply In_upto in Hi; exact (Hp i Hi (eq_sym E)).
Qed.

Lemma assign_any_expression_witness :
  exists m',
    assign A (times (EVec B) (F maximum_Map (EVec C) (EVec B))) main_store
    = (m', Ok tt) /\
    (forall i, 0 <= i < len A ->
       exists v, Eval (times (EVec B) (F maximum_Map (EVec C) (EVec B))) main_store i
                 = Some v /\
                 load m' (ptr_add (dptr A) i) = Some v) /\
    (forall p, (forall i, 0 <= i < len A -> p <> ptr_add (dptr A) i) ->
       load m' p = load main_store p).
Proof.
  apply (assign_any_expression A
           (times (EVec B) (F maximum_Map (EVec C) (EVec B))) main_store).
  - apply ExpTemplateProofs.main_store_holds; auto.
  - intros a Ha; cbn in Ha.
    assert (Ea : a = B \/ a = C) by intuition congruence.
    split.
    + apply ExpTemplateProofs.main_store_holds; destruct Ea; auto.
    + destruct Ea as [ -> | -> ]; intros E; vm_compute in E; discriminate.
Defined.

(** X2. Evaluating the same assignment a second time changes nothing,
    when the operands live in other buffers than the destination. *)
Theorem assign_twice (dst : Vec) (src : Exp) (m m1 : mem) :
  holds m dst (len dst) ->
  (forall a, In a (operands src) ->
     holds m a (len dst) /\ pblock (dptr a) <> pblock (dptr dst)) ->
  assign dst src m = (m1, Ok tt) ->
  exists m2, assign dst src m1 = (m2, Ok tt) /\ forall p, load m2 p = load m1 p.
Proof.
  intros Hd Ho Run.
  assert (Hc : forall a, In a (operands src) -> compatible m dst a).
  { intros a Ha; destruct (Ho a Ha) as [H1 H2]; split; [exact H1|].
    intros E; contradiction. }
  destruct (ExpTemplateProofs.assign_spec dst src m Hd Hc) as [m1' [Run' [Vals Fr]]].
  rewrite Run in Run'; injection Run' as <-.
  assert (Keep : forall a i, In a (operands src) ->
            load m1 (ptr_add (dptr a) i) = load m (ptr_add (dptr a) i)).
  { intros a i Ha; apply Fr; intros Hin.
    apply in_map_iff in Hin; destruct Hin as [j [E _]].
    apply (proj2 (Ho a Ha)); unfold ptr_add in E; now injection E. }
  assert (Hd1 : holds m1 dst (len dst)).
  { intros i Hi; destruct (Vals i Hi) as [v [_ L]]; rewrite L; discriminate. }
  assert (Hc1 : forall a, In a (operands src) -> compatible m1 dst a).
  { intros a Ha; split.
    - intros i Hi; rewrite (Keep a i Ha); apply (proj1 (Ho a Ha)); exact Hi.
    - intros E; exfalso; exact (proj2 (Ho a Ha) E). }
  destruct (ExpTemplateProofs.assign_spec dst src m1 Hd1 Hc1) as [m2 [Run2 [Vals2 Fr2]]].
  exists m2; split; [exact Run2|].
  intros p.
  destruct (in_dec ptr_eq_dec p
              (map (fun i => ptr_add (dptr dst) i) (upto (len dst)))) as [Hin|Hout].
  - apply in_map_iff in Hin; destruct Hin as [i [<- Hi]]; apply In_upto in Hi.
    destruct (Vals i Hi) as [v [Ev Lv]]; destruct (Vals2 i Hi) as [v2 [Ev2 Lv2]].
    rewrite Lv, Lv2; f_equal.
    rewrite (ExpTemplateProofs.Eval_agree src m m1 i) in Ev2
      by (intros a Ha; apply Keep, Ha).
    congruence.
  - apply Fr2, Hout.
Qed.

Lemma assign_twice_witness :
  exists m1 m2,
    assign A (times (EVec B) (EVec C)) main_store = (m1, Ok tt) /\
    assign A (times (EVec B) (EVec C)) m1 = (m2, Ok tt) /\
    forall p, load m2 p = load m1 p.
Proof.
  exists (fst (assign A (times (EVec B) (EVec C)) main_store)).
  assert (Run : assign A (times (EVec B) (EVec C)) main_store
                = (fst (assign A (times (EVec B) (EVec C)) main_store), Ok tt))
    by (vm_compute; reflexivity).
  assert (Hops : forall a, In a (operands (times (EVec B) (EVec C))) ->
            holds main_store a (len A) /\ pblock (dptr a) <> pblock (dptr A)).
  { intros a Ha; cbn in Ha.
    assert (Ea : a = B \/ a = C) by intuition congruence.
    split.
    - apply ExpTemplateProofs.main_store_holds; destruct Ea; auto.
    - destruct Ea as [ -> | -> ]; intros E; vm_compute in E; discriminate. }
  destruct (assign_twice A (times (EVec B) (EVec C)) main_store _
              (ExpTemplateProofs.main_store_holds A (or_introl eq_refl)) Hops Run)
    as [m2 [R2 Same]].
  exists m2; split; [exact Run|split; [exact R2|exact Same]].
Defined.

(** X3. A destination whose length is zero or negative is left alone: the
    loop body never runs, whatever the expression and the pointers are. *)
Theorem assign_empty (dst : Vec) (src : Exp) (m : mem) :
  len dst <= 0 -> assign dst src m = (m, Ok tt).
Proof.
  intros H; unfold assign, upto.
  replace (Z.to_nat (len dst)) with 0%nat by lia; reflexivity.
Qed.

Lemma assign_empty_witness :
  assign (mkVec (-1) (mkptr 7 0)) (EVec (mkVec 3 (mkptr 9 0))) empty_mem
  = (empty_mem, Ok tt).
Proof. apply assign_empty; simpl; lia. Defined.

Lemma SFltb_irrefl (a : float) : SFltb a a = false.
Proof.
  unfold SFltb; destruct a as [s|s| |s m e]; cbn; try reflexivity.
  - destruct s; reflexivity.
  - destruct s; rewrite Z.compare_refl, Pos.compare_cont_refl; reflexivity.
Qed.

Lemma SFltb_asym (a b : float) : SFltb a b = true -> SFltb b a = false.
Proof.
  unfold SFltb.
  destruct a as [sa|sa| |sa ma ea], b as [sb|sb| |sb mb eb]; cbn;
    try discriminate; try reflexivity;
    try (destruct sa; discriminate || reflexivity);
    try (destruct sb; discriminate || reflexivity);
    try (destruct sa, sb; discriminate || reflexivity).
  destruct sa, sb; try discriminate; try reflexivity;
    rewrite (Z.compare_antisym ea eb), (ZC4 mb ma);
    destruct (ea ?= eb); cbn; try discriminate; try reflexivity;
    destruct (Pos.compare_cont Eq ma mb); cbn; try discriminate; reflexivity.
Qed.

(** X4. [maximum::Map] returns one of its two arguments, and neither
    argument compares greater than the result.  A NaN is not treated
    symmetrically: [maximum(NaN, b)] is [b], while [maximum(a, NaN)] is
    NaN. *)
Theorem maximum_Map_upper_bound (a b : float) :
  (maximum_Map a b = a \/ maximum_Map a b = b) /\
  fgt a (maximum_Map a b) = false /\
  fgt b (maximum_Map a b) = false /\
  maximum_Map S754_nan b = b /\
  maximum_Map a S754_nan = S754_nan.
Proof.
  unfold maximum_Map, fgt; split; [|split; [|split; [|split]]].
  - destruct (SFltb b a); auto.
  - destruct (SFltb b a) eqn:E; [apply SFltb_irrefl | exact E].
  - destruct (SFltb b a) eqn:E; [apply SFltb_asym, E | apply SFltb_irrefl].
  - destruct b; reflexivity.
  - destruct a; reflexivity.
Qed.



End ExpTemplateExtras.

(* ================================================================== *)
(** ** Further properties of the expression engine *)

Module ExprEngineExtras.
Import ExprEngine.

(** *** Static type inference *)

Lemma binary_kDim_comm (TA TB : ExpType) :
  ExpInfo_kDim (TBinaryMapExp TA TB) = ExpInfo_kDim (TBinaryMapExp TB TA).
Proof.
  cbn [ExpInfo_kDim].
  set (l := ExpInfo_kDim TA); set (r := ExpInfo_kDim TB).
  destruct (Z.geb_spec l 0), (Z.geb_spec r 0), (Z.eqb_spec l 0),
    (Z.eqb_spec r 0), (Z.eqb_spec l r), (Z.eqb_spec r l); cbn; lia.
Qed.

Lemma binary_kDim_assoc (TA TB TC : ExpType) :
  ExpInfo_kDim (TBinaryMapExp (TBinaryMapExp TA TB) TC)
  = ExpInfo_kDim (TBinaryMapExp TA (TBinaryMapExp TB TC)).
Proof.
  cbn [ExpInfo_kDim].
  set (a := ExpInfo_kDim TA); set (b := ExpInfo_kDim TB); set (c := ExpInfo_kDim TC).
  destruct (Z.geb_spec a 0), (Z.geb_spec b 0), (Z.geb_spec c 0),
    (Z.eqb_spec a 0), (Z.eqb_spec b 0), (Z.eqb_spec c 0),
    (Z.eqb_spec a b), (Z.eqb_spec b c); cbn;
    repeat match goal with
           | |- context [?x >=? ?y] => destruct (Z.geb_spec x y); cbn
           | |- context [?x =? ?y] => destruct (Z.eqb_spec x y); cbn
           end; lia.
Qed.

Lemma binary_kDevMask_comm (TA TB : ExpType) :
  ExpInfo_kDevMask (TBinaryMapExp TA TB) = ExpInfo_kDevMask (TBinaryMapExp TB TA).
Proof. cbn [ExpInfo_kDevMask]; apply Z.land_comm. Qed.

Lemma binary_kDevMask_assoc (TA TB TC : ExpType) :
  ExpInfo_kDevMask (TBinaryMapExp (TBinaryMapExp TA TB) TC)
  = ExpInfo_kDevMask (TBinaryMapExp TA (TBinaryMapExp TB TC)).
Proof. cbn [ExpInfo_kDevMask]; symmetry; apply Z.land_assoc. Qed.

(** X6. The outcome of the static checks does not depend on the order or
    on the grouping of the operands of binary maps: swapping the two
    operands, or re-associating a chain of two binary maps, changes
    neither the inferred dimension nor the map and reduce checks. *)
Theorem TypeCheck_binary_order_irrelevant (D : Device) (dim : Z)
    (TA TB TC : ExpType) :
  (ExpInfo_kDim (TBinaryMapExp TA TB) = ExpInfo_kDim (TBinaryMapExp TB TA) /\
   TypeCheck_kMapPass D dim (TBinaryMapExp TA TB)
   = TypeCheck_kMapPass D dim (TBinaryMapExp TB TA) /\
   TypeCheck_kRedPass D dim (TBinaryMapExp TA TB)
   = TypeCheck_kRedPass D dim (TBinaryMapExp TB TA)) /\
  (ExpInfo_kDim (TBinaryMapExp (TBinaryMapExp TA TB) TC)
   = ExpInfo_kDim (TBinaryMapExp TA (TBinaryMapExp TB TC)) /\
   TypeCheck_kMapPass D dim (TBinaryMapExp (TBinaryMapExp TA TB) TC)
   = TypeCheck_kMapPass D dim (TBinaryMapExp TA (TBinaryMapExp TB TC)) /\
   TypeCheck_kRedPass D dim (TBinaryMapExp (TBinaryMapExp TA TB) TC)
   = TypeCheck_kRedPass D dim (TBinaryMapExp TA (TBinaryMapExp TB TC))).
Proof.
  unfold TypeCheck_kMapPass, TypeCheck_kRedPass, TypeCheck_kDevPass,
    TypeCheck_kExpDim.
  rewrite (binary_kDim_comm TA TB), (binary_kDim_assoc TA TB TC).
  rewrite (binary_kDevMask_comm TA TB), (binary_kDevMask_assoc TA TB TC).
  repeat split; reflexivity.
Qed.







(** X8. For a destination whose rank is not negative, no expression type
    passes both the map check and the reduce check. *)
Theorem TypeCheck_map_and_reduce_exclusive (D : Device) (dim : Z) (E : ExpType) :
  0 <= dim ->
  TypeCheck_kMapPass D dim E = true -> TypeCheck_kRedPass D dim E = false.
Proof.
  unfold TypeCheck_kMapPass, TypeCheck_kRedPass.
  intros Hd H; apply andb_true_iff in H; destruct H as [Hk _].
  apply orb_true_iff in Hk; apply andb_false_iff; left.
  destruct (Z.gtb_spec (TypeCheck_kExpDim E) dim); [|reflexivity].
  destruct Hk as [Hk|Hk]; apply Z.eqb_eq in Hk; lia.
Qed.

Lemma TypeCheck_map_and_reduce_exclusive_witness :
  TypeCheck_kRedPass cpu 2 (TBinaryMapExp (TTensor cpu 2) TScalarExp) = false.
Proof.
  apply TypeCheck_map_and_reduce_exclusive; [lia | reflexivity].
Defined.

(** *** Shape consistency *)

Lemma list_set_length (l : list index_t) (i : nat) (v : index_t) :
  List.length (list_set l i v) = List.length l.
Proof.
  revert i; induction l as [|a l IH]; intros [|i]; cbn; auto.
Qed.

Lemma Shape_swap01_length (s : Shape) :
  List.length (shape_ (Shape_swap01 s)) = List.length (shape_ s).
Proof.
  unfold Shape_swap01; destruct (shape_ s) as [|a [|b l]] eqn:E; cbn;
    rewrite ?E; reflexivity.
Qed.

Lemma ShapeCheck_Check_length (J : Indeterminate) (dim : nat) (e : Exp) (s : Shape) :
  ShapeCheck_Check J dim e = Ok s -> List.length (shape_ s) = dim.
Proof.
  revert s; induction e as [c|t|e IH|s0 sub|OP e IH|OP l IHl r IHr];
    intros s; cbn [ShapeCheck_Check].
  - intros E; injection E as <-; cbn.
    now rewrite list_set_length, length_map, length_seq.
  - destruct (Nat.eqb_spec (List.length (shape_ (shape t))) dim); [|discriminate].
    intros E; injection E as <-; assumption.
  - destruct (ShapeCheck_Check J dim e) as [s'| | |]; cbn; try discriminate.
    intros E; injection E as <-; rewrite Shape_swap01_length; auto.
  - destruct (Nat.eqb_spec (List.length (shape_ s0)) dim); [|discriminate].
    intros E; injection E as <-; assumption.
  - destruct (ShapeCheck_Check J dim e) as [s'| | |]; cbn; try discriminate.
    intros E; injection E as <-; auto.
  - destruct (ShapeCheck_Check J dim l) as [s1| | |]; cbn; try discriminate.
    destruct (ShapeCheck_Check J dim r) as [s2| | |]; cbn; try discriminate.
    destruct (Shape_get s1 0 =? 0); [intros E; injection E as <-; auto|].
    destruct (Shape_get s2 0 =? 0); [intros E; injection E as <-; auto|].
    destruct (Shape_eqb s1 s2); cbn; [|discriminate].
    intros E; injection E as <-; auto.
Qed.

(** X9. A shape derived by [ShapeCheck<dim,E>::Check] has exactly [dim]
    axes, for every expression the check accepts. *)
Theorem ShapeCheck_rank (J : Indeterminate) (dim : nat) (e : Exp) (s : Shape) :
  ShapeCheck_Check J dim e = Ok s -> List.length (shape_ s) = dim.
Proof. apply ShapeCheck_Check_length. Qed.

Lemma ShapeCheck_rank_witness :
  List.length (shape_ (shape mm_lhs)) = 2%nat.
Proof.
  apply (ShapeCheck_rank J0 2
           (BinaryMapExp fmul (ScalarExp one) (TransposeExp (TransposeExp (TensorExp mm_lhs))))).
  reflexivity.
Defined.

Lemma Shape_swap01_involutive (s : Shape) : Shape_swap01 (Shape_swap01 s) = s.
Proof.
  destruct s as [[|a [|b l]] st]; reflexivity.
Qed.

(** X10. For expressions of rank 2 or more, the shape derived for
    [Transpose(Transpose(e))] is the shape derived for [e], and the check
    fails for the one exactly as it fails for the other. *)
Theorem ShapeCheck_transpose_twice (J : Indeterminate) (dim : nat) (e : Exp) :
  (2 <= dim)%nat ->
  ShapeCheck_Check J dim (TransposeExp (TransposeExp e)) = ShapeCheck_Check J dim e.
Proof.
  intros _; cbn [ShapeCheck_Check].
  destruct (ShapeCheck_Check J dim e) as [s| | |]; cbn; try reflexivity.
  now rewrite Shape_swap01_involutive.
Qed.

Lemma ShapeCheck_transpose_twice_witness :
  ShapeCheck_Check J0 2 (TransposeExp (TransposeExp (TensorExp mm_lhs)))
  = ShapeCheck_Check J0 2 (TensorExp mm_lhs).
Proof. apply ShapeCheck_transpose_twice; lia. Defined.

(** X11. A tensor whose lowest extent is 0 is taken for a scalar by the
    shape check: a binary map of such a tensor and any tensor of the same
    rank passes the check, whatever the other extents are, and derives to
    the shape of the other tensor. *)
Theorem ShapeCheck_zero_extent_is_scalar (J : Indeterminate) (dim : nat)
    (OP : float -> float -> float) (a b : Tensor) :
  List.length (shape_ (shape a)) = dim ->
  List.length (shape_ (shape b)) = dim ->
  Shape_get (shape a) 0 = 0 ->
  ShapeCheck_Check J dim (BinaryMapExp OP (TensorExp a) (TensorExp b)) = Ok (shape b) /\
  (Shape_get (shape b) 0 <> 0 ->
   ShapeCheck_Check J dim (BinaryMapExp OP (TensorExp b) (TensorExp a)) = Ok (shape b)).
Proof.
  intros La Lb Za; cbn [ShapeCheck_Check].
  rewrite La, Lb, Nat.eqb_refl; cbn [obind]; rewrite Za; cbn.
  split; [reflexivity|].
  intros Nb; destruct (Z.eqb_spec (Shape_get (shape b) 0) 0); [contradiction|reflexivity].
Qed.

Lemma ShapeCheck_zero_extent_is_scalar_witness :
  let a := mkTensor cpu (mkptr 5 0) (mkShape [0; 7] 0) in
  ShapeCheck_Check J0 2 (BinaryMapExp fmul (TensorExp a) (TensorExp mm_lhs))
  = Ok (shape mm_lhs) /\
  (Shape_get (shape mm_lhs) 0 <> 0 ->
   ShapeCheck_Check J0 2 (BinaryMapExp fmul (TensorExp mm_lhs) (TensorExp a))
   = Ok (shape mm_lhs)).
Proof.
  apply (ShapeCheck_zero_extent_is_scalar J0 2 fmul
           (mkTensor cpu (mkptr 5 0) (mkShape [0; 7] 0)) mm_lhs); reflexivity.
Defined.

Lemma matrix_shape (s : Shape) :
  List.length (shape_ s) = 2%nat -> exists a b, shape_ s = [a; b].
Proof.
  destruct (shape_ s) as [|a [|b [|c l]]]; cbn; try discriminate.
  intros _; exists a, b; reflexivity.
Qed.

Lemma Shape_get_swap01 (s : Shape) :
  List.length (shape_ s) = 2%nat ->
  Shape_get (Shape_swap01 s) 0 = Shape_get s 1 /\
  Shape_get (Shape_swap01 s) 1 = Shape_get s 0.
Proof.
  intros L; destruct (matrix_shape s L) as [a [b E]].
  unfold Shape_swap01, Shape_get; rewrite E; cbn; auto.
Qed.

Lemma Shape_get_same (s1 s2 : Shape) (i : nat) :
  shape_ s1 = shape_ s2 -> Shape_get s1 i = Shape_get s2 i.
Proof. unfold Shape_get; now intros ->. Qed.

Lemma ShapeCheck_cover (J : Indeterminate) (e : Exp) :
  forall s, ShapeCheck_Check J 2 e = Ok s -> extents_nonzero e ->
    ((Shape_get s 0 = 0 \/ Shape_get s 1 = 0) -> forall y x, in_bounds e y x) /\
    (forall y x, within s y x -> in_bounds e y x).
Proof.
  induction e as [c|t|e IH|s0 sub|OP e IH|OP l IHl r IHr];
    intros s Hs Hn; cbn [in_bounds extents_nonzero] in *.
  - split; auto.
  - cbn [ShapeCheck_Check] in Hs.
    destruct (Nat.eqb (List.length (shape_ (shape t))) 2); [|discriminate].
    injection Hs as <-; split; [|auto].
    intros [Z0|Z1]; [destruct (proj1 Hn Z0) | destruct (proj2 Hn Z1)].
  - cbn [ShapeCheck_Check] in Hs.
    destruct (ShapeCheck_Check J 2 e) as [s'| | |] eqn:E; cbn in Hs; try discriminate.
    injection Hs as <-.
    destruct (Shape_get_swap01 s' (ShapeCheck_Check_length J 2 e s' E)) as [G0 G1].
    destruct (IH s' eq_refl Hn) as [IH1 IH2].
    unfold within; rewrite G0, G1; split.
    + intros Hz y x; apply IH1; tauto.
    + intros y x Hw; apply IH2; unfold within; tauto.
  - cbn [ShapeCheck_Check] in Hs.
    destruct (Nat.eqb (List.length (shape_ s0)) 2); [|discriminate].
    injection Hs as <-; split; [|auto].
    intros [Z0|Z1]; [destruct (proj1 Hn Z0) | destruct (proj2 Hn Z1)].
  - cbn [ShapeCheck_Check] in Hs.
    destruct (ShapeCheck_Check J 2 e) as [s'| | |] eqn:E; cbn in Hs; try discriminate.
    injection Hs as <-; apply (IH s' eq_refl Hn).
  - cbn [ShapeCheck_Check] in Hs; destruct Hn as [Hnl Hnr].
    destruct (ShapeCheck_Check J 2 l) as [s1| | |] eqn:E1; cbn in Hs; try discriminate.
    destruct (ShapeCheck_Check J 2 r) as [s2| | |] eqn:E2; cbn in Hs; try discriminate.
    destruct (IHl s1 eq_refl Hnl) as [L1 L2].
    destruct (IHr s2 eq_refl Hnr) as [R1 R2].
    destruct (Z.eqb_spec (Shape_get s1 0) 0) as [Z1|N1].
    { injection Hs as <-; split.
      - intros Hz y x; split; [apply L1; auto | apply R1; exact Hz].
      - intros y x Hw; split; [apply L1; auto | apply R2; exact Hw]. }
    destruct (Z.eqb_spec (Shape_get s2 0) 0) as [Z2|N2].
    { injection Hs as <-; split.
      - intros Hz y x; split; [apply L1; exact Hz | apply R1; auto].
      - intros y x Hw; split; [apply L2; exact Hw | apply R1; auto]. }
    unfold Shape_eqb in Hs.
    destruct (list_eqb (shape_ s1) (shape_ s2)) eqn:Eq; cbn in Hs; [|discriminate].
    injection Hs as <-.
    apply ExprEngineProofs.list_eqb_eq in Eq.
    split.
    + intros Hz y x; split; [apply L1; exact Hz|].
      apply R1.
      rewrite <- (Shape_get_same s1 s2 0 Eq), <- (Shape_get_same s1 s2 1 Eq); exact Hz.
    + intros y x Hw; split; [apply L2; exact Hw|].
      apply R2; unfold within in *.
      rewrite <- (Shape_get_same s1 s2 0 Eq), <- (Shape_get_same s1 s2 1 Eq); exact Hw.
Qed.

Lemma in_bounds_readable (m : mem) (e : Exp) :
  leaves_readable m e ->
  forall y x, in_bounds e y x -> Plan_Eval (MakePlan e) m y x <> None.
Proof.
  induction e as [c|t|e IH|s0 sub|OP e IH|OP l IHl r IHr];
    cbn [leaves_readable in_bounds]; intros Hr y x Hb.
  - discriminate.
  - rewrite ExprEngineProofs.Plan_Eval_Tensor; apply Hr, Hb.
  - cbn [MakePlan Plan_Eval]; apply IH; assumption.
  - cbn [MakePlan Plan_Eval]; apply Hr, Hb.
  - cbn [MakePlan Plan_Eval].
    destruct (Plan_Eval (MakePlan e) m y x) eqn:E; [discriminate|].
    exfalso; exact (IH Hr y x Hb E).
  - cbn [MakePlan Plan_Eval]; destruct Hr as [Hl Hr], Hb as [Bl Br].
    destruct (Plan_Eval (MakePlan l) m y x) eqn:El;
      [|exfalso; exact (IHl Hl y x Bl El)].
    destruct (Plan_Eval (MakePlan r) m y x) eqn:Er;
      [discriminate|exfalso; exact (IHr Hr y x Br Er)].
Qed.

(** X12. The shape check guards the evaluation of matrix expressions:
    when [ShapeCheck<2,E>::Check] accepts an expression none of whose
    tensors has an extent 0, then at every coordinate within the derived
    shape the plan asks each tensor only for cells within that tensor's
    shape, through every transposition, so the evaluation has a value as
    soon as the tensors themselves are readable. *)
Theorem ShapeCheck_guards_evaluation (J : Indeterminate) (e : Exp) (s : Shape)
    (m : mem) (y x : index_t) :
  ShapeCheck_Check J 2 e = Ok s ->
  extents_nonzero e ->
  leaves_readable m e ->
  within s y x ->
  in_bounds e y x /\ exists v, Plan_Eval (MakePlan e) m y x = Some v.
Proof.
  intros Hs Hn Hr Hw.
  assert (Hb : in_bounds e y x) by (apply (ShapeCheck_cover J e s Hs Hn), Hw).
  split; [exact Hb|].
  destruct (Plan_Eval (MakePlan e) m y x) as [v|] eqn:E; [exists v; reflexivity|].
  exfalso; exact (in_bounds_readable m e Hr y x Hb E).
Qed.

Lemma mm_lhs_readable : leaves_readable mm_store (TensorExp mm_lhs).
Proof.
  intros y x [Hy Hx]; change (Shape_get (shape mm_lhs) 1) with 2 in Hy;
    change (Shape_get (shape mm_lhs) 0) with 3 in Hx.
  assert (Ey : y = 0 \/ y = 1) by lia.
  assert (Ex : x = 0 \/ x = 1 \/ x = 2) by lia.
  destruct Ey as [ -> | -> ], Ex as [ -> | [ -> | -> ] ]; vm_compute; discriminate.
Qed.

Lemma ShapeCheck_guards_evaluation_witness :
  let e := BinaryMapExp fmul (TensorExp mm_lhs)
             (TransposeExp (TransposeExp (UnaryMapExp (fmul one) (TensorExp mm_lhs)))) in
  in_bounds e 1 2 /\ exists v, Plan_Eval (MakePlan e) mm_store 1 2 = Some v.
Proof.
  apply (ShapeCheck_guards_evaluation J0 _ (shape mm_lhs)).
  - reflexivity.
  - cbn; repeat split; discriminate.
  - cbn; split; exact mm_lhs_readable.
  - unfold within; cbn; lia.
Defined.

(** *** The BLAS routines *)










(** *** The dot engine *)





Lemma FlatTo2D_vector (t : Tensor) :
  rank t = 1 ->
  rows (shape (FlatTo2D t)) = 1 /\ cols (shape (FlatTo2D t)) = Shape_get (shape t) 0 /\
  stride_ (shape (FlatTo2D t)) = stride_ (shape t) /\ dptr (FlatTo2D t) = dptr t.
Proof.
  intros R; repeat split.
  exact (ExprEngineProofs.nrows_rank1 t R).
Qed.

(** X14. The three ways the (2,1,1) evaluation can go.  When the
    destination does not have one row per element of the left vector and
    one column per element of the right vector, it fails with the
    "dot-ger" diagnostic and the store is as it was.  Otherwise it is the
    ger call when [kBetaBLAS] is below [1e-6f], and else, for rank-1
    operands, it is the gemm call on the two vectors taken as one-row
    matrices: the shape check of the gemm path cannot fail there. *)
Theorem dot_ger_dispatch (J : Indeterminate) (SV : Saver)
    (dst lhs rhs : Tensor) (scale : float) (m : mem) :
  let agree :=
    rows (shape dst) = Shape_get (shape lhs) 0 /\
    cols (shape dst) = Shape_get (shape rhs) 0 in
  (~ agree ->
     DotEngine_2_1_1_Eval J SV dst lhs rhs scale m = (m, AssertFail dot_ger_mismatch)) /\
  (agree -> flt (kBetaBLAS SV) lit_1e_6f = true ->
     DotEngine_2_1_1_Eval J SV dst lhs rhs scale m
     = BLASEngine_ger (Shape_get (shape rhs) 0) (Shape_get (shape lhs) 0)
         (fmul scale (kAlphaBLAS SV))
         (dptr rhs) 1 (dptr lhs) 1 (dptr dst) (stride_ (shape dst)) m) /\
  (agree -> flt (kBetaBLAS SV) lit_1e_6f = false -> rank lhs = 1 -> rank rhs = 1 ->
     DotEngine_2_1_1_Eval J SV dst lhs rhs scale m
     = BLASEngine_gemm false true
         (Shape_get (shape rhs) 0) (Shape_get (shape lhs) 0) 1
         (fmul scale (kAlphaBLAS SV))
         (dptr rhs) (stride_ (shape rhs)) (dptr lhs) (stride_ (shape lhs))
         (kBetaBLAS SV) (dptr dst) (stride_ (shape dst)) m).
Proof.
  cbv zeta; unfold rows, cols; split; [|split].
  - intros N; unfold DotEngine_2_1_1_Eval, bind, lift, Assert.
    destruct (Z.eqb_spec (Shape_get (shape dst) 1) (Shape_get (shape lhs) 0));
      [|reflexivity].
    destruct (Z.eqb_spec (Shape_get (shape dst) 0) (Shape_get (shape rhs) 0));
      [|reflexivity].
    exfalso; apply N; auto.
  - intros [E1 E2] Hb.
    rewrite (ExprEngineProofs.DotEngine_2_1_1_branches J SV dst lhs rhs scale m E1 E2), Hb.
    reflexivity.
  - intros [E1 E2] Hb Rl Rr.
    rewrite (ExprEngineProofs.DotEngine_2_1_1_branches J SV dst lhs rhs scale m E1 E2), Hb.
    destruct (FlatTo2D_vector lhs Rl) as [Lr [Lc [Ls Lp]]].
    destruct (FlatTo2D_vector rhs Rr) as [Rr' [Rc [Rs Rp]]].
    destruct (ExprEngineProofs.DotEngine_2_2_2_Eval_cases J SV true false dst
                (FlatTo2D lhs) (FlatTo2D rhs) scale m) as [Pass _].
    rewrite Pass.
    + unfold effective_rows, effective_cols.
      rewrite Lc, Rc, Rr', Ls, Rs, Lp, Rp; reflexivity.
    + unfold effective_rows, effective_cols, rows, cols in *.
      rewrite Lc, Rc, Lr, Rr'; auto.
Qed.

Lemma dot_ger_dispatch_witness :
  DotEngine_2_1_1_Eval J0 plusto ger_dst ger_X ger_Y one ger_store
  = BLASEngine_gemm false true 2 2 1 (fmul one (kAlphaBLAS plusto))
      (dptr ger_Y) 2 (dptr ger_X) 2 (kBetaBLAS plusto) (dptr ger_dst) 2 ger_store.
Proof.
  apply (proj2 (proj2 (dot_ger_dispatch J0 plusto ger_dst ger_X ger_Y one ger_store)));
    try reflexivity.
  split; reflexivity.
Defined.









(** *** Static type inference, continued *)

Lemma built_on_info (D : Device) (dim : Z) (E : ExpType) :
  0 <= dim ->
  Z.land 65535 (kDevMask D) = kDevMask D ->
  built_on D dim E ->
  (ExpInfo_kDim E = 0 \/ ExpInfo_kDim E = dim) /\
  (ExpInfo_kDevMask E = 65535 \/ ExpInfo_kDevMask E = kDevMask D).
Proof.
  intros Hd Hm.
  induction E as [|E IH|D' dim'|T _ Src _ dim'|TA IH|TA IHa TB IHb|TA _ TB _ lt rt|name];
    cbn [built_on ExpInfo_kDim ExpInfo_kDevMask]; intros H; auto; try contradiction.
  - destruct H as [-> ->]; auto.
  - destruct H as [Ha Hb]; specialize (IHa Ha); specialize (IHb Hb).
    destruct IHa as [Ka Ma], IHb as [Kb Mb]; split.
    + set (l := ExpInfo_kDim TA) in *; set (r := ExpInfo_kDim TB) in *.
      destruct (Z.geb_spec l 0), (Z.geb_spec r 0), (Z.eqb_spec l 0),
        (Z.eqb_spec r 0), (Z.eqb_spec l r); cbn; lia.
    + destruct Ma as [-> | ->], Mb as [-> | ->].
      * left; reflexivity.
      * right; exact Hm.
      * right; rewrite Z.land_comm; exact Hm.
      * right; apply Z.land_diag.
Qed.

(** X15. The map check is complete for plain expressions: an expression
    type built from scalars and from tensors of the destination's rank and
    device, by transposition and unary and binary maps, passes [kMapPass],
    provided the device has a mask that is not zero and lies within the
    sixteen bits a scalar supports. *)
Theorem TypeCheck_kMapPass_complete (D : Device) (dim : Z) (E : ExpType) :
  0 <= dim ->
  kDevMask D <> 0 ->
  Z.land 65535 (kDevMask D) = kDevMask D ->
  built_on D dim E ->
  TypeCheck_kMapPass D dim E = true.
Proof.
  intros Hd Hnz Hm Hb.
  destruct (built_on_info D dim E Hd Hm Hb) as [Hk Hmask].
  unfold TypeCheck_kMapPass, TypeCheck_kDevPass, TypeCheck_kExpDim.
  apply andb_true_iff; split.
  - apply orb_true_iff; destruct Hk as [-> | ->]; [left|right]; apply Z.eqb_refl.
  - apply negb_true_iff, Z.eqb_neq.
    destruct Hmask as [-> | ->]; [rewrite Hm | rewrite Z.land_diag]; exact Hnz.
Qed.

Lemma TypeCheck_kMapPass_complete_witness :
  TypeCheck_kMapPass cpu 2
    (TBinaryMapExp (TTensor cpu 2)
       (TUnaryMapExp (TBinaryMapExp TScalarExp (TTransposeExp (TTensor cpu 2)))))
  = true.
Proof.
  apply TypeCheck_kMapPass_complete;
    [lia | simpl; discriminate | reflexivity | simpl; tauto].
Defined.

End ExprEngineExtras.
